(** * AMM arbitrage V2 controller (hummingbot/strategy/amm_arb)

    A shallow embedding of [amm_arb_controller.py] and [amm_arb_config.py]:
    the size sweep, the direction selector, the order-candidate generator
    and the controller's decision cycle, over a model of Python's [Decimal]
    arithmetic in its default context (28 significant digits, round half
    to even). Python exceptions are results of an error monad; the
    controller object and the venues behind its connectors are the state. *)

From Stdlib Require Import ZArith QArith Qpower Qabs Qfield Lia Lqa List Znumtheory.
From stdpp Require Import base option gmap strings.
Import ListNotations.

Open Scope Z_scope.

(** ** Python's [decimal.Decimal], default context *)

Module Dec.

(** A finite decimal: [coef * 10 ^ dexp]. The sign lives in the
    coefficient, so the two zeros of Python's Decimal are one value here
    (they compare equal in Python); NaN and infinities are left out, and
    exponents are unbounded (the context's Emin/Emax are never reached). *)
Record Decimal : Type := mk { coef : Z; dexp : Z }.

(** [getcontext().prec] *)
Definition prec : Z := 28.

(** [len(str(n))] for [n >= 0]: the number of decimal digits. *)
Fixpoint digits_fuel (fuel : nat) (n : Z) : Z :=
  match fuel with
  | O => 1
  | S f => if n <? 10 then 1 else 1 + digits_fuel f (n / 10)
  end.

Definition ndigits (n : Z) : Z :=
  digits_fuel (Z.to_nat (Z.log2 (Z.abs n))) (Z.abs n).

(** [Decimal._fix] with ROUND_HALF_EVEN: a coefficient of more than
    [prec] digits loses its low digits; the kept part goes up when the
    dropped part is above one half, or is exactly one half and the kept
    part is odd; a carry into digit [prec + 1] drops one more zero. *)
Definition fix_ctx (d : Decimal) : Decimal :=
  let n := ndigits (coef d) in
  if n <=? prec then d else
  let k := n - prec in
  let a := Z.abs (coef d) in
  let q := a / 10 ^ k in
  let r := a mod 10 ^ k in
  let half := 5 * 10 ^ (k - 1) in
  let q' := if (half <? r) || ((r =? half) && Z.odd q) then q + 1 else q in
  if q' =? 10 ^ prec
  then mk (Z.sgn (coef d) * 10 ^ (prec - 1)) (dexp d + k + 1)
  else mk (Z.sgn (coef d) * q') (dexp d + k).

(** [Decimal(n)] for a Python int: exact. *)
Definition of_int (n : Z) : Decimal := mk n 0.

(** The exact sum, at the smaller exponent. *)
Definition add_exact (a b : Decimal) : Decimal :=
  let e := Z.min (dexp a) (dexp b) in
  mk (coef a * 10 ^ (dexp a - e) + coef b * 10 ^ (dexp b - e)) e.

Definition copy_negate (a : Decimal) : Decimal := mk (- coef a) (dexp a).

(** [a + b] *)
Definition add (a b : Decimal) : Decimal := fix_ctx (add_exact a b).

(** [-a]: unary minus rounds to the context as well. *)
Definition neg (a : Decimal) : Decimal := fix_ctx (copy_negate a).

(** [a - b] is [a.__add__(b.copy_negate())]. *)
Definition sub (a b : Decimal) : Decimal := add a (copy_negate b).

(** [a * b] *)
Definition mul (a b : Decimal) : Decimal :=
  fix_ctx (mk (coef a * coef b) (dexp a + dexp b)).

(** The loop of [__truediv__] on an exact quotient:
    [while exp < ideal_exp and coeff % 10 == 0: coeff //= 10; exp += 1];
    the fuel is [ideal_exp - exp]. *)
Fixpoint strip_zeros (fuel : nat) (c e : Z) : Z * Z :=
  match fuel with
  | O => (c, e)
  | S f => if c mod 10 =? 0 then strip_zeros f (c / 10) (e + 1) else (c, e)
  end.

(** [a / b] ([Decimal.__truediv__]); [None] is the DivisionByZero (or
    InvalidOperation, for 0/0) that a zero divisor raises. The quotient
    of the coefficients is taken with [prec + 1] or [prec + 2] digits,
    an inexact one is made sticky ([coeff % 5 == 0] gives [coeff + 1]),
    and [_fix] rounds. *)
Definition div (a b : Decimal) : option Decimal :=
  if coef b =? 0 then None
  else if coef a =? 0 then Some (fix_ctx (mk 0 (dexp a - dexp b)))
  else
    let shift := ndigits (coef b) - ndigits (coef a) + prec + 1 in
    let e := dexp a - dexp b - shift in
    let n := Z.abs (coef a) in
    let m := Z.abs (coef b) in
    let '(q, r) := if 0 <=? shift
                   then Z.div_eucl (n * 10 ^ shift) m
                   else Z.div_eucl n (m * 10 ^ (- shift)) in
    let sgn := Z.sgn (coef a) * Z.sgn (coef b) in
    if r =? 0 then
      let '(q', e') := strip_zeros (Z.to_nat (dexp a - dexp b - e)) q e in
      Some (fix_ctx (mk (sgn * q') e'))
    else
      Some (fix_ctx (mk (sgn * (if q mod 5 =? 0 then q + 1 else q)) e)).

(** The rational a decimal stands for. *)
Definition pow10 (e : Z) : Q := Qpower (10 # 1) e.
Definition val (d : Decimal) : Q := (inject_Z (coef d) * pow10 (dexp d))%Q.

(** Comparisons are by value. *)
Definition compare (a b : Decimal) : comparison := Qcompare (val a) (val b).
Definition gtb (a b : Decimal) : bool :=
  match compare a b with Gt => true | _ => false end.
Definition geb (a b : Decimal) : bool :=
  match compare a b with Lt => false | _ => true end.

(** A decimal that [_fix] leaves alone: at most [prec] digits. Every
    result of an arithmetic operation is one. *)
Definition fits (d : Decimal) : Prop := ndigits (coef d) <= prec.

End Dec.

Abbreviation Decimal := Dec.Decimal.

Declare Scope dec_scope.
Delimit Scope dec_scope with dec.
Bind Scope dec_scope with Dec.Decimal.
Infix "+" := Dec.add : dec_scope.
Infix "-" := Dec.sub : dec_scope.
Infix "*" := Dec.mul : dec_scope.
Notation "- x" := (Dec.neg x) : dec_scope.
Infix ">?" := Dec.gtb : dec_scope.
Infix ">=?" := Dec.geb : dec_scope.

(** ** Data types of the strategy *)

(** [hummingbot.core.data_type.common]: the members the controller names. *)
Inductive TradeType : Type := BUY | SELL.
Inductive OrderType : Type := TAKER | MAKER.

(** A connector, as far as the controller looks into it. *)
Record Market : Type := { name : string }.

Module MarketTradingPairTuple.
Record t : Type := mk { market : Market; trading_pair : string }.
End MarketTradingPairTuple.

(** [data_types.ArbProposalSide]: the fields the controller reads, and the
    fee rate of the side (the data model's; the evaluator reads it). *)
Module ArbProposalSide.
Record t : Type := mk {
  market_info : MarketTradingPairTuple.t;
  is_buy : bool;
  order_price : Decimal;
  amount : Decimal;
  fee : Decimal
}.
End ArbProposalSide.

Module ArbProposal.
Record t : Type := mk {
  first_side : ArbProposalSide.t;
  second_side : ArbProposalSide.t
}.
End ArbProposal.

Module OrderCandidate.
Record t : Type := mk {
  trading_pair : string;
  is_maker : bool;
  trade_type : TradeType;
  order_type : OrderType;
  amount : Decimal;
  price : Decimal
}.
End OrderCandidate.

(** [ExecutorInfo(controller_id=..., executor_name=..., config={"order_candidate": ...})] *)
Module ExecutorInfo.
Record t : Type := mk {
  controller_id : string;
  executor_name : string;
  order_candidate : OrderCandidate.t
}.
End ExecutorInfo.

(** [AmmArbV2Config]: the fields of the class, and [id] of its base. *)
Module AmmArbV2Config.
Record t : Type := mk {
  id : string;
  connector_1 : string;
  trading_pair_1 : string;
  connector_2 : string;
  trading_pair_2 : string;
  min_order_amount : Decimal;
  max_order_amount : Decimal;
  min_profitability : Decimal;
  market_1_slippage_buffer : Decimal;
  market_2_slippage_buffer : Decimal
}.

(** The values given when the configuration is loaded; a field that is
    not given takes the default of its declaration. *)
Record kwargs : Type := given {
  kw_connector_1 : option string;
  kw_trading_pair_1 : option string;
  kw_connector_2 : option string;
  kw_trading_pair_2 : option string;
  kw_min_order_amount : option Decimal;
  kw_max_order_amount : option Decimal;
  kw_min_profitability : option Decimal;
  kw_market_1_slippage_buffer : option Decimal;
  kw_market_2_slippage_buffer : option Decimal
}.
End AmmArbV2Config.

(** ** Exceptions and the controller's state *)

Inductive PyExn : Type :=
  | InsufficientLiquidity
  | QuoteProviderUnavailable
  | ConfigurationError
  | DivisionByZero
  | IndexError
  | KeyError (key : string).

Inductive Result (A : Type) : Type :=
  | Ok (a : A)
  | Raise (e : PyExn).
Arguments Ok {A} a.
Arguments Raise {A} e.

(** What [log_with_clock] is given in [determine_actions]. *)
Inductive LogRecord : Type :=
  | FoundProfitable (profit_pct : Decimal) (size : Decimal).

(** The controller object: its configuration, its connectors, the
    last-proposal slot, what it has logged, and the state [W] of the venues
    its connectors talk to. *)
Module AmmArbV2Controller.
Record t (W : Type) : Type := mk {
  config : AmmArbV2Config.t;
  connectors : gmap string MarketTradingPairTuple.t;
  last_proposal : option ArbProposal.t;
  log : list LogRecord;
  venues : W
}.
Arguments mk {W}.
Arguments config {W}.
Arguments connectors {W}.
Arguments last_proposal {W}.
Arguments log {W}.
Arguments venues {W}.
End AmmArbV2Controller.

(** A method of the controller: it reads and writes [self], and returns
    or raises. What it wrote before it raised stays written. *)
Definition M (S A : Type) : Type := S -> Result A * S.

Definition ret {S A : Type} (a : A) : M S A := fun s => (Ok a, s).

Definition raise {S A : Type} (e : PyExn) : M S A := fun s => (Raise e, s).

Definition bind {S A B : Type} (m : M S A) (k : A -> M S B) : M S B :=
  fun s => match m s with
           | (Ok a, s') => k a s'
           | (Raise e, s') => (Raise e, s')
           end.

Definition gets {S A : Type} (f : S -> A) : M S A := fun s => (Ok (f s), s).

Definition modify {S : Type} (f : S -> S) : M S unit := fun s => (Ok tt, f s).

Definition lift {S A : Type} (r : Result A) : M S A := fun s => (r, s).

#[global] Instance M_ret {S : Type} : MRet (M S) := @ret S.
#[global] Instance M_bind {S : Type} : MBind (M S) :=
  fun A B k m => bind m k.

(** [for x in xs: acc = body(x, acc)] *)
Fixpoint for_each {S X A : Type} (xs : list X) (body : X -> A -> M S A)
    (acc : A) : M S A :=
  match xs with
  | [] => ret acc
  | x :: rest => acc' ← body x acc; for_each rest body acc'
  end.

(** [range(n)] *)
Definition range (n : nat) : list Z := map Z.of_nat (seq 0 n).

(** [xs[0]] *)
Definition index0 {A : Type} (xs : list A) : Result A :=
  match xs with
  | x :: _ => Ok x
  | [] => Raise IndexError
  end.

(** [d[key]] *)
Definition getitem {A : Type} (d : gmap string A) (key : string) : Result A :=
  match d !! key with
  | Some v => Ok v
  | None => Raise (KeyError key)
  end.

(** [a / b] with its exception. *)
Definition truediv (a b : Decimal) : Result Decimal :=
  match Dec.div a b with
  | Some q => Ok q
  | None => Raise DivisionByZero
  end.

(** ** [amm_arb_config.py] *)

Module Config.
Import AmmArbV2Config.

(** The class declares its fields with their defaults and nothing else:
    loading fills in what was not given and returns the object. *)
Definition load (config_id : string) (kw : kwargs) : Result t :=
  Ok {| id := config_id;
        connector_1 := default "binance"%string (kw_connector_1 kw);
        trading_pair_1 := default "BTC-USDT"%string (kw_trading_pair_1 kw);
        connector_2 := default "uniswap_v2"%string (kw_connector_2 kw);
        trading_pair_2 := default "WBTC-WETH"%string (kw_trading_pair_2 kw);
        min_order_amount := default (Dec.mk 1 (-2)) (kw_min_order_amount kw);
        max_order_amount := default (Dec.mk 10 (-1)) (kw_max_order_amount kw);
        min_profitability := default (Dec.mk 5 (-3)) (kw_min_profitability kw);
        market_1_slippage_buffer :=
          default (Dec.mk 1 (-2)) (kw_market_1_slippage_buffer kw);
        market_2_slippage_buffer :=
          default (Dec.mk 1 (-2)) (kw_market_2_slippage_buffer kw) |}.

(** No field given: the declared defaults. *)
Definition no_kwargs : kwargs :=
  given None None None None None None None None None.

(** The [markets] property: (connector, trading pair) under two keys. *)
Definition markets (c : t) : gmap string (string * string) :=
  <["market_1"%string := (connector_1 c, trading_pair_1 c)]>
    (<["market_2"%string := (connector_2 c, trading_pair_2 c)]> ∅).
End Config.

(** ** [amm_arb_controller.py] *)

Section Controller.
Import AmmArbV2Controller.

(** The venues' state, and the two collaborators that are not part of
    the controller: [utils.create_arb_proposals], which asks the venues
    for quotes and may raise, and [ArbProposal.profit_pct]. *)
Context {W : Type}.
Variable create_arb_proposals :
  MarketTradingPairTuple.t -> MarketTradingPairTuple.t -> Decimal ->
  W -> Result (list ArbProposal.t) * W.
Variable profit_pct : ArbProposal.t -> bool -> Result Decimal.

Local Abbreviation self_t := (AmmArbV2Controller.t W).

Definition set_last_proposal (p : option ArbProposal.t) (self : self_t)
    : self_t :=
  mk (config self) (connectors self) p (log self) (venues self).

Definition log_with_clock (r : LogRecord) (self : self_t) : self_t :=
  mk (config self) (connectors self) (last_proposal self)
     (log self ++ [r]) (venues self).

Definition set_venues (w : W) (self : self_t) : self_t :=
  mk (config self) (connectors self) (last_proposal self) (log self) w.

(** [await create_arb_proposals(market_info_1=..., market_info_2=...,
    order_amount=...)] *)
Definition await_create_arb_proposals
    (market_info_1 market_info_2 : MarketTradingPairTuple.t)
    (order_amount : Decimal) : M self_t (list ArbProposal.t) :=
  fun self =>
    let '(r, w) := create_arb_proposals market_info_1 market_info_2
                     order_amount (venues self) in
    (r, set_venues w self).

Definition get_slippage_buffer (self : self_t) (side : ArbProposalSide.t)
    : Decimal :=
  if String.eqb
       (name (MarketTradingPairTuple.market (ArbProposalSide.market_info side)))
       (AmmArbV2Config.connector_1 (config self))
  then AmmArbV2Config.market_1_slippage_buffer (config self)
  else AmmArbV2Config.market_2_slippage_buffer (config self).

Definition create_order_candidate (self : self_t) (side : ArbProposalSide.t)
    : OrderCandidate.t :=
  let slippage_buffer := get_slippage_buffer self side in
  let price_adjustment :=
    (Dec.mk 1 0 + (if ArbProposalSide.is_buy side
                   then slippage_buffer else - slippage_buffer))%dec in
  let price := (ArbProposalSide.order_price side * price_adjustment)%dec in
  {| OrderCandidate.trading_pair :=
       MarketTradingPairTuple.trading_pair (ArbProposalSide.market_info side);
     OrderCandidate.is_maker := false;
     OrderCandidate.trade_type :=
       if ArbProposalSide.is_buy side then BUY else SELL;
     OrderCandidate.order_type := TAKER;
     OrderCandidate.amount := ArbProposalSide.amount side;
     OrderCandidate.price := price |}.

Definition create_executors (self : self_t) (proposal : ArbProposal.t)
    : list ExecutorInfo.t :=
  map (fun side =>
         {| ExecutorInfo.controller_id := AmmArbV2Config.id (config self);
            ExecutorInfo.executor_name := "dca_simple";
            ExecutorInfo.order_candidate := create_order_candidate self side |})
      [ArbProposal.first_side proposal; ArbProposal.second_side proposal].

(** [num_steps = 20  # Number of sizes to check] *)
Definition num_steps : nat := 20.

(** The body of [for i in range(num_steps)], on the running
    [(best_profit_pct, best_proposal)]. *)
Definition sweep_step (buy_market sell_market : MarketTradingPairTuple.t)
    (step_size : Decimal) (i : Z) (best : Decimal * option ArbProposal.t)
    : M self_t (Decimal * option ArbProposal.t) :=
  cfg ← gets config;
  let order_amount :=
    (AmmArbV2Config.min_order_amount cfg + Dec.of_int i * step_size)%dec in
  proposals ← await_create_arb_proposals buy_market sell_market order_amount;
  proposal ← lift (index0 proposals);
  pct ← lift (profit_pct proposal true);
  if (pct >? best.1)%dec then mret (pct, Some proposal) else mret best.

Definition find_best_size_for_direction
    (buy_market sell_market : MarketTradingPairTuple.t)
    : M self_t (option (ArbProposal.t * Decimal)) :=
  let best_profit_pct := Dec.mk (-1) 0 in
  let best_proposal : option ArbProposal.t := None in
  cfg ← gets config;
  step_size ← lift (truediv (AmmArbV2Config.max_order_amount cfg
                             - AmmArbV2Config.min_order_amount cfg)%dec
                            (Dec.of_int (Z.of_nat num_steps - 1)));
  best ← for_each (range num_steps)
                  (sweep_step buy_market sell_market step_size)
                  (best_profit_pct, best_proposal);
  match best.2 with
  | Some proposal =>
      if (best.1 >? Dec.of_int 0)%dec then mret (Some (proposal, best.1))
      else mret None
  | None => mret None
  end.

(** [opp1 if opp1[1] > opp2[1] else opp2] when both are truthy, else
    [opp1 or opp2]. *)
Definition choose (opp1 opp2 : option (ArbProposal.t * Decimal))
    : option (ArbProposal.t * Decimal) :=
  match opp1, opp2 with
  | Some o1, Some o2 => if (o1.2 >? o2.2)%dec then opp1 else opp2
  | Some _, None => opp1
  | None, _ => opp2
  end.

Definition find_optimal_arb_opportunity
    : M self_t (option (ArbProposal.t * Decimal)) :=
  cs ← gets connectors;
  market_1 ← lift (getitem cs "market_1");
  market_2 ← lift (getitem cs "market_2");
  opp1 ← find_best_size_for_direction market_1 market_2;
  opp2 ← find_best_size_for_direction market_2 market_1;
  mret (choose opp1 opp2).

Definition determine_actions : M self_t (list ExecutorInfo.t) :=
  optimal_opportunity ← find_optimal_arb_opportunity;
  match optimal_opportunity with
  | None => mret []
  | Some (proposal, pct) =>
      modify (set_last_proposal (Some proposal));;
      cfg ← gets config;
      if (pct >=? AmmArbV2Config.min_profitability cfg)%dec then
        modify (log_with_clock
                  (FoundProfitable pct
                     (ArbProposalSide.amount (ArbProposal.first_side proposal))));;
        self ← gets (fun self => self);
        mret (create_executors self proposal)
      else mret []
  end.

End Controller.

(** ** The profitability evaluator *)

Module Evaluator.
Import ArbProposal ArbProposalSide.

Definition buy_side (p : ArbProposal.t) : ArbProposalSide.t :=
  if is_buy (first_side p) then first_side p else second_side p.

Definition sell_side (p : ArbProposal.t) : ArbProposalSide.t :=
  if is_buy (first_side p) then second_side p else first_side p.

(** Modelled from the spec: [ArbProposal.profit_pct] is defined in
    [hummingbot/strategy/amm_arb/data_types.py], which is not among the
    sources. The specification gives
    [outlay = buy.amount * buy.price * (1 + buy.fee if account_for_fee else 1)],
    [proceeds = sell.amount * sell.price * (1 - sell.fee if account_for_fee else 1)]
    and the result [proceeds / outlay - 1]; they are taken here as the
    Decimal expressions they are written as. *)
Definition profit_pct (p : ArbProposal.t) (account_for_fee : bool)
    : Result Decimal :=
  let one := Dec.mk 1 0 in
  let buy := buy_side p in
  let sell := sell_side p in
  let outlay :=
    (amount buy * order_price buy
     * (if account_for_fee then one + fee buy else one))%dec in
  let proceeds :=
    (amount sell * order_price sell
     * (if account_for_fee then one - fee sell else one))%dec in
  match truediv proceeds outlay with
  | Ok q => Ok (q - one)%dec
  | Raise e => Raise e
  end.

(** The invariant of the data model on a side: amount and price
    positive, fee rate in [0, 1). *)
Definition side_ok (s : ArbProposalSide.t) : Prop :=
  (0 < Dec.val (amount s) /\ 0 < Dec.val (order_price s)
   /\ 0 <= Dec.val (fee s) /\ Dec.val (fee s) < 1)%Q.
End Evaluator.

(** ** The sweep, sample by sample *)

Section Sweep.
Import AmmArbV2Controller.
Context {W : Type}.
Variable create_arb_proposals :
  MarketTradingPairTuple.t -> MarketTradingPairTuple.t -> Decimal ->
  W -> Result (list ArbProposal.t) * W.
Variable profit_pct : ArbProposal.t -> bool -> Result Decimal.

Local Abbreviation self_t := (AmmArbV2Controller.t W).

(** The size of sample [i]: [min_order_amount + i * step_size]. *)
Definition sample_size (cfg : AmmArbV2Config.t) (step_size : Decimal) (i : Z)
    : Decimal :=
  (AmmArbV2Config.min_order_amount cfg + Dec.of_int i * step_size)%dec.

(** [step_size = (max_order_amount - min_order_amount) / (num_steps - 1)] *)
Definition step_size_of (cfg : AmmArbV2Config.t) : Result Decimal :=
  truediv (AmmArbV2Config.max_order_amount cfg
           - AmmArbV2Config.min_order_amount cfg)%dec
          (Dec.of_int (Z.of_nat num_steps - 1)).

(** The sizes one sweep asks quotes for, in order. *)
Definition sweep_sizes (cfg : AmmArbV2Config.t) : Result (list Decimal) :=
  match step_size_of cfg with
  | Ok step_size => Ok (map (sample_size cfg step_size) (range num_steps))
  | Raise e => Raise e
  end.

(** One sample of the loop, without the comparison: the proposal built
    for size [i] and its fee-aware profitability. *)
Definition eval_sample (buy_market sell_market : MarketTradingPairTuple.t)
    (step_size : Decimal) (i : Z) : M self_t (ArbProposal.t * Decimal) :=
  cfg ← gets config;
  proposals ← await_create_arb_proposals create_arb_proposals
                buy_market sell_market (sample_size cfg step_size i);
  proposal ← lift (index0 proposals);
  pct ← lift (profit_pct proposal true);
  mret (proposal, pct).

Fixpoint eval_samples (buy_market sell_market : MarketTradingPairTuple.t)
    (step_size : Decimal) (l : list Z)
    : M self_t (list (ArbProposal.t * Decimal)) :=
  match l with
  | [] => mret []
  | i :: rest =>
      x ← eval_sample buy_market sell_market step_size i;
      xs ← eval_samples buy_market sell_market step_size rest;
      mret (x :: xs)
  end.

(** [if profit_pct > best_profit_pct: best_profit_pct, best_proposal = ...] *)
Definition keep_best (best : Decimal * option ArbProposal.t)
    (x : ArbProposal.t * Decimal) : Decimal * option ArbProposal.t :=
  if (x.2 >? best.1)%dec then (x.2, Some x.1) else best.

Definition running_best (xs : list (ArbProposal.t * Decimal))
    : Decimal * option ArbProposal.t :=
  fold_left keep_best xs (Dec.mk (-1) 0, None).

(** What the sweep returns from the running best. *)
Definition sweep_result (best : Decimal * option ArbProposal.t)
    : option (ArbProposal.t * Decimal) :=
  match best.2 with
  | Some proposal =>
      if Dec.gtb best.1 (Dec.of_int 0) then Some (proposal, best.1) else None
  | None => None
  end.

(** [m] with its exception caught and handed back as a value. *)
Definition attempt {A : Type} (m : M self_t A) : M self_t (Result A) :=
  fun self => let '(r, self') := m self in (Ok r, self').

(** The sweep as the specification words it: a sample whose proposal
    cannot be built for lack of liquidity is skipped, and the loop goes
    on with the next one. *)
Definition sweep_step_skipping
    (buy_market sell_market : MarketTradingPairTuple.t)
    (step_size : Decimal) (i : Z) (best : Decimal * option ArbProposal.t)
    : M self_t (Decimal * option ArbProposal.t) :=
  cfg ← gets config;
  built ← attempt (await_create_arb_proposals create_arb_proposals
                     buy_market sell_market (sample_size cfg step_size i));
  match built with
  | Raise InsufficientLiquidity => mret best
  | Raise e => raise e
  | Ok proposals =>
      proposal ← lift (index0 proposals);
      pct ← lift (profit_pct proposal true);
      mret (keep_best best (proposal, pct))
  end.

Definition find_best_size_skipping
    (buy_market sell_market : MarketTradingPairTuple.t)
    : M self_t (option (ArbProposal.t * Decimal)) :=
  cfg ← gets config;
  step_size ← lift (step_size_of cfg);
  best ← for_each (range num_steps)
                  (sweep_step_skipping buy_market sell_market step_size)
                  (Dec.mk (-1) 0, None);
  match best.2 with
  | Some proposal =>
      if (best.1 >? Dec.of_int 0)%dec then mret (Some (proposal, best.1))
      else mret None
  | None => mret None
  end.

End Sweep.

(** A quote source that also writes down every size it is asked for. *)
Definition recording {W : Type}
    (create_arb_proposals :
       MarketTradingPairTuple.t -> MarketTradingPairTuple.t -> Decimal ->
       W -> Result (list ArbProposal.t) * W)
    (m1 m2 : MarketTradingPairTuple.t) (order_amount : Decimal)
    (w : W * list Decimal) : Result (list ArbProposal.t) * (W * list Decimal) :=
  let '(r, w') := create_arb_proposals m1 m2 order_amount w.1 in
  (r, (w', w.2 ++ [order_amount])).

(** Two controllers with the same configuration and connectors, whose
    venues are related by [R]. *)
Definition alike {W1 W2 : Type} (R : W1 -> W2 -> Prop)
    (s1 : AmmArbV2Controller.t W1) (s2 : AmmArbV2Controller.t W2) : Prop :=
  AmmArbV2Controller.config s1 = AmmArbV2Controller.config s2
  /\ AmmArbV2Controller.connectors s1 = AmmArbV2Controller.connectors s2
  /\ R (AmmArbV2Controller.venues s1) (AmmArbV2Controller.venues s2).

(** ** Rounding to the context, as a relation on rationals

    [rounds x v]: [v] is [x] rounded to [prec] significant digits, to the
    nearest, ties to the even coefficient. For [x > 0] there is one
    exponent [g] with [10 ^ (prec - 1) * 10 ^ g <= x < 10 ^ prec * 10 ^ g],
    and [v] is [n * 10 ^ g] for the integer [n] nearest to [x / 10 ^ g]. *)

Definition decade (x : Q) (g : Z) : Prop :=
  (inject_Z (10 ^ (Dec.prec - 1)) * Dec.pow10 g <= x
   /\ x < inject_Z (10 ^ Dec.prec) * Dec.pow10 g)%Q.

Definition near (x : Q) (g n : Z) : Prop :=
  (inject_Z (2 * n - 1) * Dec.pow10 g <= 2 * x
   /\ 2 * x <= inject_Z (2 * n + 1) * Dec.pow10 g
   /\ (2 * x == inject_Z (2 * n - 1) * Dec.pow10 g
       \/ 2 * x == inject_Z (2 * n + 1) * Dec.pow10 g -> Z.even n = true))%Q.

Definition rounds_pos (x v : Q) : Prop :=
  exists g n, decade x g /\ near x g n /\ (v == inject_Z n * Dec.pow10 g)%Q.

Definition rounds (x v : Q) : Prop :=
  ((x == 0 /\ v == 0)
   \/ (0 < x /\ rounds_pos x v)
   \/ (x < 0 /\ rounds_pos (- x) (- v)))%Q.

(** The coefficient and exponent [__truediv__] hands to [_fix], for the
    magnitudes [n] and [m] of the operands' coefficients. *)
Definition div_mag (n m ea eb : Z) : Z * Z :=
  let shift := Dec.ndigits m - Dec.ndigits n + Dec.prec + 1 in
  let e := ea - eb - shift in
  let '(q, r) := if 0 <=? shift
                 then Z.div_eucl (n * 10 ^ shift) m
                 else Z.div_eucl n (m * 10 ^ (- shift)) in
  if r =? 0 then Dec.strip_zeros (Z.to_nat (ea - eb - e)) q e
  else (if q mod 5 =? 0 then q + 1 else q, e).

(** ** Two venues with fixed quotes, to run the controller on *)

Module Fixture.

Definition binance : MarketTradingPairTuple.t :=
  MarketTradingPairTuple.mk {| name := "binance" |} "BTC-USDT".
Definition uniswap : MarketTradingPairTuple.t :=
  MarketTradingPairTuple.mk {| name := "uniswap_v2" |} "WBTC-WETH".

(** Ask and bid of a venue: binance 100 / 99.9, uniswap 101.2 / 101. *)
Definition ask (m : MarketTradingPairTuple.t) : Decimal :=
  if String.eqb (name (MarketTradingPairTuple.market m)) "binance"
  then Dec.mk 100 0 else Dec.mk 1012 (-1).
Definition bid (m : MarketTradingPairTuple.t) : Decimal :=
  if String.eqb (name (MarketTradingPairTuple.market m)) "binance"
  then Dec.mk 999 (-1) else Dec.mk 101 0.

(** A 0.1% taker fee on both venues. *)
Definition taker_fee : Decimal := Dec.mk 1 (-3).

Definition proposal (buy_market sell_market : MarketTradingPairTuple.t)
    (order_amount : Decimal) : ArbProposal.t :=
  ArbProposal.mk
    (ArbProposalSide.mk buy_market true (ask buy_market) order_amount taker_fee)
    (ArbProposalSide.mk sell_market false (bid sell_market) order_amount taker_fee).

(** The state of the venues is the number of requests served so far.
    Both proposals come back, the asked direction first; the answer does
    not depend on the count. *)
Definition quotes (m1 m2 : MarketTradingPairTuple.t) (order_amount : Decimal)
    (served : nat) : Result (list ArbProposal.t) * nat :=
  (Ok [proposal m1 m2 order_amount; proposal m2 m1 order_amount], S served).

(** The same venues with a depth: no quote above [depth]. *)
Definition shallow_quotes (depth : Decimal)
    (m1 m2 : MarketTradingPairTuple.t) (order_amount : Decimal)
    (served : nat) : Result (list ArbProposal.t) * nat :=
  if (order_amount >? depth)%dec then (Raise InsufficientLiquidity, S served)
  else quotes m1 m2 order_amount served.

Definition connectors : gmap string MarketTradingPairTuple.t :=
  <["market_1"%string := binance]> (<["market_2"%string := uniswap]> ∅).

Definition controller (cfg : AmmArbV2Config.t) (served : nat)
    : AmmArbV2Controller.t nat :=
  AmmArbV2Controller.mk cfg connectors None [] served.

(** What loading gives, or the default values should loading raise. *)
Definition loaded (kw : AmmArbV2Config.kwargs) : AmmArbV2Config.t :=
  match Config.load "main" kw with
  | Ok c => c
  | Raise _ =>
      AmmArbV2Config.mk "main" "binance" "BTC-USDT" "uniswap_v2" "WBTC-WETH"
        (Dec.mk 1 (-2)) (Dec.mk 10 (-1)) (Dec.mk 5 (-3)) (Dec.mk 1 (-2))
        (Dec.mk 1 (-2))
  end.

Definition default_config : AmmArbV2Config.t := loaded Config.no_kwargs.

(** Sizes from 1 to 4. *)
Definition wide_kwargs : AmmArbV2Config.kwargs :=
  AmmArbV2Config.given None None None None
    (Some (Dec.mk 1 0)) (Some (Dec.mk 4 0)) None None None.

(** Sizes from 1 down to 0.5, and every fraction at -0.01. *)
Definition inverted_kwargs : AmmArbV2Config.kwargs :=
  AmmArbV2Config.given None None None None
    (Some (Dec.mk 1 0)) (Some (Dec.mk 5 (-1)))
    (Some (Dec.mk (-1) (-2))) (Some (Dec.mk (-1) (-2)))
    (Some (Dec.mk (-1) (-2))).

(** No slippage buffer on either venue. *)
Definition no_buffer_kwargs : AmmArbV2Config.kwargs :=
  AmmArbV2Config.given None None None None None None None
    (Some (Dec.mk 0 0)) (Some (Dec.mk 0 0)).

(** A buy on binance quoted at 1.0000000000000000000000000001, a price of
    29 digits. *)
Definition long_price_side : ArbProposalSide.t :=
  ArbProposalSide.mk binance true
    (Dec.mk 10000000000000000000000000001 (-28)) (Dec.mk 1 0) taker_fee.

(** One unit bought at 100 and sold at 101, with the fee rate [f] on both
    sides. *)
Definition bought_100_sold_101 (f : Decimal) : ArbProposal.t :=
  ArbProposal.mk
    (ArbProposalSide.mk binance true (Dec.mk 100 0) (Dec.mk 1 0) f)
    (ArbProposalSide.mk uniswap false (Dec.mk 101 0) (Dec.mk 1 0) f).

(** Venues on which no direction pays: every ask is 100, every bid 99. *)
Definition dry_quotes (m1 m2 : MarketTradingPairTuple.t)
    (order_amount : Decimal) (served : nat)
    : Result (list ArbProposal.t) * nat :=
  (Ok [ArbProposal.mk
         (ArbProposalSide.mk m1 true (Dec.mk 100 0) order_amount taker_fee)
         (ArbProposalSide.mk m2 false (Dec.mk 99 0) order_amount taker_fee)],
   S served).

(** A controller whose venues also write the requested sizes down. *)
Definition recording_controller (cfg : AmmArbV2Config.t)
    : AmmArbV2Controller.t (nat * list Decimal) :=
  AmmArbV2Controller.mk cfg connectors None [] (0%nat, []).

End Fixture.

(** * Properties *)

(** ** Decimal arithmetic rounds to the nearest *)

Lemma pow10_pos e : (0 < Dec.pow10 e)%Q.
Proof. apply Qpower_0_lt. reflexivity. Qed.

Lemma pow10_add a b : (Dec.pow10 (a + b) == Dec.pow10 a * Dec.pow10 b)%Q.
Proof. apply Qpower_plus. discriminate. Qed.

Lemma pow10_Z n : 0 <= n -> (Dec.pow10 n == inject_Z (10 ^ n))%Q.
Proof. intros H. unfold Dec.pow10. rewrite Zpower_Qpower by exact H. reflexivity. Qed.

(** [inject_Z a * pow10 (e + k) == inject_Z (a * 10 ^ k) * pow10 e] *)
Lemma scale_shift a e k : 0 <= k ->
  (inject_Z a * Dec.pow10 (e + k) == inject_Z (a * 10 ^ k) * Dec.pow10 e)%Q.
Proof.
  intros H. rewrite pow10_add, (pow10_Z k H), inject_Z_mult. ring.
Qed.

Lemma scale_le a b e :
  (inject_Z a * Dec.pow10 e <= inject_Z b * Dec.pow10 e)%Q <-> a <= b.
Proof.
  rewrite Qmult_le_r by apply pow10_pos. rewrite <- Zle_Qle. reflexivity.
Qed.

Lemma scale_lt a b e :
  (inject_Z a * Dec.pow10 e < inject_Z b * Dec.pow10 e)%Q <-> a < b.
Proof.
  rewrite Qmult_lt_r by apply pow10_pos. rewrite <- Zlt_Qlt. reflexivity.
Qed.

Lemma scale_eq a b e :
  (inject_Z a * Dec.pow10 e == inject_Z b * Dec.pow10 e)%Q <-> a = b.
Proof.
  split; [|intros ->; reflexivity].
  intros H. apply Z.le_antisymm; apply (scale_le _ _ e); rewrite H; apply Qle_refl.
Qed.

(** digits *)
Lemma digits_fuel_spec fuel : forall n,
  0 < n -> Z.log2 n <= Z.of_nat fuel ->
  10 ^ (Dec.digits_fuel fuel n - 1) <= n < 10 ^ Dec.digits_fuel fuel n
  /\ 1 <= Dec.digits_fuel fuel n.
Proof.
  induction fuel as [|f IH]; intros n Hn Hl; simpl.
  - assert (n = 1).
    { destruct (Z.eq_dec n 1); [assumption|].
      assert (1 <= Z.log2 n) by (apply Z.log2_le_pow2; simpl; lia). lia. }
    subst. simpl. lia.
  - destruct (n <? 10) eqn:E.
    + apply Z.ltb_lt in E. simpl. lia.
    + apply Z.ltb_ge in E.
      assert (H0 : 0 < n / 10) by (apply Z.div_str_pos; lia).
      assert (Hl' : Z.log2 (n / 10) <= Z.of_nat f).
      { assert (H2 : Z.log2 (2 * (n / 10)) <= Z.log2 n).
        { apply Z.log2_le_mono. pose proof (Z.div_mod n 10 ltac:(lia)).
          pose proof (Z.mod_pos_bound n 10 ltac:(lia)). lia. }
        rewrite Z.log2_double in H2 by exact H0. lia. }
      destruct (IH (n / 10) H0 Hl') as [[Hlo Hhi] H1].
      replace (1 + Dec.digits_fuel f (n / 10) - 1) with (Dec.digits_fuel f (n / 10) - 1 + 1) by lia.
      rewrite !Z.pow_add_r, Z.pow_1_r by lia.
      pose proof (Z.div_mod n 10 ltac:(lia)). pose proof (Z.mod_pos_bound n 10 ltac:(lia)).
      replace (10 ^ 1) with 10 by reflexivity.
      split; [split|]; nia.
Qed.

Lemma ndigits_spec n : 0 < n ->
  10 ^ (Dec.ndigits n - 1) <= n < 10 ^ Dec.ndigits n.
Proof.
  intros H. unfold Dec.ndigits. rewrite Z.abs_eq by lia.
  apply digits_fuel_spec; [exact H|]. rewrite Z2Nat.id; [lia | apply Z.log2_nonneg].
Qed.

Lemma ndigits_pos n : 1 <= Dec.ndigits n.
Proof.
  unfold Dec.ndigits. destruct (Z.eq_dec n 0) as [->|Hn]; [reflexivity|].
  apply digits_fuel_spec; [lia|]. rewrite Z2Nat.id; [lia | apply Z.log2_nonneg].
Qed.

Lemma ndigits_opp n : Dec.ndigits (- n) = Dec.ndigits n.
Proof. unfold Dec.ndigits. rewrite Z.abs_opp. reflexivity. Qed.

Lemma ndigits_abs n : Dec.ndigits (Z.abs n) = Dec.ndigits n.
Proof. unfold Dec.ndigits. rewrite Z.abs_idemp. reflexivity. Qed.

Lemma two_scale a e : (2 * (inject_Z a * Dec.pow10 e) == inject_Z (2 * a) * Dec.pow10 e)%Q.
Proof. rewrite inject_Z_mult. ring. Qed.

Lemma rounds_pos_mono x y v w :
  (x <= y)%Q -> rounds_pos x v -> rounds_pos y w -> (v <= w)%Q.
Proof.
  intros Hxy (g & n & [Dx1 Dx2] & (Nx1 & Nx2 & Nxt) & Hv)
             (h & m & [Dy1 Dy2] & (Ny1 & Ny2 & Nyt) & Hw).
  rewrite Hv, Hw.
  assert (Hn : n <= 10 ^ Dec.prec).
  { assert (H : (inject_Z (2 * n - 1) * Dec.pow10 g < inject_Z (2 * 10 ^ Dec.prec) * Dec.pow10 g)%Q).
    { rewrite <- two_scale. lra. }
    apply scale_lt in H. lia. }
  assert (Hm : 10 ^ (Dec.prec - 1) <= m).
  { assert (H : (inject_Z (2 * 10 ^ (Dec.prec - 1)) * Dec.pow10 h <= inject_Z (2 * m + 1) * Dec.pow10 h)%Q).
    { rewrite <- two_scale. lra. }
    apply scale_le in H. lia. }
  destruct (Z.lt_trichotomy g h) as [Hlt | [Heq | Hgt]].
  - apply Qle_trans with (inject_Z (10 ^ Dec.prec) * Dec.pow10 g)%Q;
      [apply scale_le; exact Hn|].
    apply Qle_trans with (inject_Z (10 ^ (Dec.prec - 1)) * Dec.pow10 h)%Q;
      [|apply scale_le; exact Hm].
    replace h with (g + 1 + (h - g - 1)) by lia.
    rewrite (scale_shift _ (g + 1)) by lia.
    replace (g + 1) with (g + 1) by lia. rewrite scale_shift by lia.
    apply scale_le.
    assert (1 <= 10 ^ (h - g - 1)) by (pose proof (Z.pow_pos_nonneg 10 (h - g - 1)); lia).
    change (10 ^ Dec.prec) with (10 ^ (Dec.prec - 1) * 10).
    change (10 ^ 1) with 10.
    assert (0 < 10 ^ (Dec.prec - 1)) by reflexivity. nia.
  - subst h.
    assert (H : (inject_Z (2 * n - 1) * Dec.pow10 g <= inject_Z (2 * m + 1) * Dec.pow10 g)%Q) by lra.
    apply scale_le in H.
    destruct (Z.eq_dec n (m + 1)) as [->|Hne]; [|apply scale_le; lia].
    exfalso.
    replace (2 * (m + 1) - 1) with (2 * m + 1) in * by lia.
    assert (E1 : Z.even (m + 1) = true) by (apply Nxt; left; lra).
    assert (E2 : Z.even m = true) by (apply Nyt; right; lra).
    rewrite Z.even_add in E1. rewrite E2 in E1. discriminate.
  - exfalso.
    assert (H : (inject_Z (10 ^ Dec.prec) * Dec.pow10 h <= inject_Z (10 ^ (Dec.prec - 1)) * Dec.pow10 g)%Q).
    { replace g with (h + 1 + (g - h - 1)) by lia.
      rewrite (scale_shift _ (h + 1)) by lia. rewrite scale_shift by lia.
      apply scale_le.
      assert (1 <= 10 ^ (g - h - 1)) by (pose proof (Z.pow_pos_nonneg 10 (g - h - 1)); lia).
      change (10 ^ Dec.prec) with (10 ^ (Dec.prec - 1) * 10).
      change (10 ^ 1) with 10.
      assert (0 < 10 ^ (Dec.prec - 1)) by reflexivity. nia. }
    lra.
Qed.

Lemma scale_pos a e : 0 < a -> (0 < inject_Z a * Dec.pow10 e)%Q.
Proof.
  intros H. apply Qmult_lt_0_compat; [|apply pow10_pos].
  rewrite Zlt_Qlt in H. exact H.
Qed.

Lemma rounds_pos_sign x v : rounds_pos x v -> (0 < x /\ 0 < v)%Q.
Proof.
  intros (g & n & [D1 D2] & (N1 & N2 & _) & Hv).
  assert (Hp : (0 < inject_Z (10 ^ (Dec.prec - 1)) * Dec.pow10 g)%Q).
  { apply scale_pos. reflexivity. }
  split; [lra|]. rewrite Hv.
  assert (H : (inject_Z (2 * 10 ^ (Dec.prec - 1)) * Dec.pow10 g
               <= inject_Z (2 * n + 1) * Dec.pow10 g)%Q).
  { rewrite <- two_scale. lra. }
  apply scale_le in H.
  apply scale_pos.
  assert (0 < 10 ^ (Dec.prec - 1)) by reflexivity. lia.
Qed.

Lemma rounds_pos_proper x x' v v' :
  (x == x')%Q -> (v == v')%Q -> rounds_pos x v -> rounds_pos x' v'.
Proof.
  intros Hx Hv (g & n & [D1 D2] & (N1 & N2 & Nt) & Hn).
  exists g, n. unfold decade, near. rewrite <- Hx, <- Hv. tauto.
Qed.

Lemma rounds_proper x x' v v' :
  (x == x')%Q -> (v == v')%Q -> rounds x v -> rounds x' v'.
Proof.
  intros Hx Hv [[H1 H2] | [[H1 H2] | [H1 H2]]].
  - left. rewrite <- Hx, <- Hv. tauto.
  - right; left. split; [rewrite <- Hx; exact H1|].
    exact (rounds_pos_proper _ _ _ _ Hx Hv H2).
  - right; right. split; [rewrite <- Hx; exact H1|].
    apply (rounds_pos_proper (- x) _ (- v)); [rewrite Hx | rewrite Hv |]; easy.
Qed.

(** Rounding is monotone. *)
Lemma rounds_mono x y v w :
  (x <= y)%Q -> rounds x v -> rounds y w -> (v <= w)%Q.
Proof.
  intros Hxy [[X0 V0] | [[X1 Xr] | [X1 Xr]]] [[Y0 W0] | [[Y1 Yr] | [Y1 Yr]]];
    try (pose proof (rounds_pos_sign _ _ Xr) as [? ?]);
    try (pose proof (rounds_pos_sign _ _ Yr) as [? ?]);
    try lra.
  - apply (rounds_pos_mono x y); assumption.
  - assert (Hneg : (- w <= - v)%Q)
      by (apply (rounds_pos_mono (- y) (- x)); [lra | assumption..]).
    lra.
Qed.

Lemma rounds_sign x v : rounds x v ->
  ((0 < x -> 0 < v) /\ (x < 0 -> v < 0) /\ (0 <= x -> 0 <= v) /\ (x <= 0 -> v <= 0))%Q.
Proof.
  intros [[X0 V0] | [[X1 Xr] | [X1 Xr]]];
    try (apply rounds_pos_sign in Xr); repeat split; intros; lra.
Qed.

(** Rounding is a function. *)
Lemma rounds_fun x v w : rounds x v -> rounds x w -> (v == w)%Q.
Proof.
  intros Hv Hw. apply Qle_antisym; eapply rounds_mono; try eassumption; apply Qle_refl.
Qed.

(** A positive rational [Num / Den * 10 ^ e] whose numerator lies in the
    [prec]-digit decade at [k] more digits, and the integer nearest to it
    there. *)
Lemma rounds_pos_intro x Num Den e k n :
  0 < Den -> 0 <= k ->
  (x * inject_Z Den == inject_Z Num * Dec.pow10 e)%Q ->
  10 ^ (Dec.prec - 1) * 10 ^ k * Den <= Num < 10 ^ Dec.prec * 10 ^ k * Den ->
  (2 * n - 1) * 10 ^ k * Den <= 2 * Num <= (2 * n + 1) * 10 ^ k * Den ->
  (2 * Num = (2 * n - 1) * 10 ^ k * Den \/ 2 * Num = (2 * n + 1) * 10 ^ k * Den ->
   Z.even n = true) ->
  rounds_pos x (inject_Z n * Dec.pow10 (e + k)).
Proof.
  intros HD Hk Hx [Hd1 Hd2] [Hn1 Hn2] Ht.
  assert (HDq : (0 < inject_Z Den)%Q) by (rewrite Zlt_Qlt in HD; exact HD).
  assert (S : forall a, (inject_Z a * Dec.pow10 (e + k) * inject_Z Den
                         == inject_Z (a * 10 ^ k * Den) * Dec.pow10 e)%Q).
  { intros a. rewrite scale_shift by exact Hk. rewrite (inject_Z_mult _ Den). ring. }
  assert (S2 : (2 * x * inject_Z Den == inject_Z (2 * Num) * Dec.pow10 e)%Q).
  { rewrite inject_Z_mult. rewrite <- Qmult_assoc, Hx. ring. }
  exists (e + k), n. split; [|split; [|reflexivity]].
  - split.
    + apply (Qmult_le_r _ _ (inject_Z Den) HDq). rewrite S, Hx.
      apply scale_le. exact Hd1.
    + apply (Qmult_lt_r _ _ (inject_Z Den) HDq). rewrite S, Hx.
      apply scale_lt. exact Hd2.
  - split; [|split].
    + apply (Qmult_le_r _ _ (inject_Z Den) HDq). rewrite S, S2.
      apply scale_le. exact Hn1.
    + apply (Qmult_le_r _ _ (inject_Z Den) HDq). rewrite S, S2.
      apply scale_le. exact Hn2.
    + intros [E|E]; apply Ht; [left|right];
        apply (scale_eq _ _ e); rewrite <- S, <- S2, E; reflexivity.
Qed.

Lemma pow_prec : 10 ^ Dec.prec = 10 * 10 ^ (Dec.prec - 1).
Proof. reflexivity. Qed.

Lemma pow_prec1_pos : 0 < 10 ^ (Dec.prec - 1).
Proof. reflexivity. Qed.

Lemma val_mk c e : Dec.val (Dec.mk c e) = (inject_Z c * Dec.pow10 e)%Q.
Proof. reflexivity. Qed.

(** The value [_fix] gives a long positive coefficient. *)
Lemma fix_ctx_long c e :
  0 < c -> Dec.prec < Dec.ndigits c ->
  let k := Dec.ndigits c - Dec.prec in
  let q := c / 10 ^ k in
  let r := c mod 10 ^ k in
  let n := if (5 * 10 ^ (k - 1) <? r) || ((r =? 5 * 10 ^ (k - 1)) && Z.odd q)
           then q + 1 else q in
  (Dec.val (Dec.fix_ctx (Dec.mk c e)) == inject_Z n * Dec.pow10 (e + k))%Q.
Proof.
  intros Hc Hlong k q r n. unfold Dec.fix_ctx. simpl Dec.coef. simpl Dec.dexp.
  destruct (Dec.ndigits c <=? Dec.prec) eqn:E; [apply Z.leb_le in E; lia|].
  rewrite (Z.abs_eq c) by lia. rewrite (Z.sgn_pos c) by lia.
  fold k. fold q. fold r. fold n.
  destruct (n =? 10 ^ Dec.prec) eqn:En.
  - apply Z.eqb_eq in En. rewrite val_mk, En.
    replace (e + k + 1) with (e + k + 1) by lia.
    rewrite (scale_shift _ (e + k) 1) by lia. apply scale_eq.
    rewrite pow_prec. change (10 ^ 1) with 10. lia.
  - rewrite val_mk. apply scale_eq. lia.
Qed.

(** The numerator [Num] over [Den], either the long coefficient [c]
    itself, or strictly within one of it with [c] made sticky: [_fix]
    rounds it to the nearest, ties to even. *)
Lemma fix_ctx_rounds_long x Num Den c e :
  0 < Den -> 0 < c -> Dec.prec < Dec.ndigits c ->
  (x * inject_Z Den == inject_Z Num * Dec.pow10 e)%Q ->
  (Num = c * Den
   \/ (c mod 5 <> 0 /\ (c - 1) * Den < Num < (c + 1) * Den)) ->
  rounds_pos x (Dec.val (Dec.fix_ctx (Dec.mk c e))).
Proof.
  intros HD Hc Hlong Hx Hcase.
  pose proof (fix_ctx_long c e Hc Hlong) as Hv. cbv zeta in Hv.
  set (k := Dec.ndigits c - Dec.prec) in *.
  set (q := c / 10 ^ k) in *. set (r := c mod 10 ^ k) in *.
  assert (Hk : 1 <= k) by (unfold k; lia).
  set (h := 10 ^ (k - 1)) in *.
  assert (Hh : 0 < h) by (apply Z.pow_pos_nonneg; lia).
  assert (HT : 10 ^ k = 10 * h).
  { unfold h. replace k with (1 + (k - 1)) at 1 by lia.
    rewrite Z.pow_add_r by lia. reflexivity. }
  assert (Hqr : c = q * (10 * h) + r /\ 0 <= r < 10 * h).
  { unfold q, r. rewrite <- HT. split.
    - rewrite Z.mul_comm. apply Z.div_mod. lia.
    - apply Z.mod_pos_bound. lia. }
  destruct Hqr as [Hqr Hr].
  assert (Hdec : 10 ^ (Dec.prec - 1) * (10 * h) <= c < 10 ^ Dec.prec * (10 * h)).
  { destruct (ndigits_spec c Hc) as [Hlo Hhi].
    replace (Dec.ndigits c - 1) with (Dec.prec - 1 + k) in Hlo by (unfold k; lia).
    replace (Dec.ndigits c) with (Dec.prec + k) in Hhi by (unfold k; lia).
    rewrite Z.pow_add_r in Hlo, Hhi by (unfold Dec.prec; lia).
    rewrite HT in Hlo, Hhi. lia. }
  pose proof pow_prec as Hp. pose proof pow_prec1_pos as Hp1.
  set (P1 := 10 ^ (Dec.prec - 1)) in *. set (P := 10 ^ Dec.prec) in *.
  assert (Hq : P1 <= q < P) by nia.
  eapply rounds_pos_proper; [reflexivity | symmetry; exact Hv |].
  apply (rounds_pos_intro x Num Den e k); try assumption; try lia;
    rewrite HT; fold P1 P.
  - (* the decade *)
    destruct Hcase as [-> | [H5 [Hlo Hhi]]]; [nia|].
    assert (c <> P1 * (10 * h)).
    { intros Ec. apply H5. rewrite Ec.
      replace (P1 * (10 * h)) with (P1 * 2 * h * 5) by ring.
      apply Z.mod_mul. lia. }
    nia.
  - (* nearest *)
    destruct Hcase as [-> | [H5 [Hlo Hhi]]].
    + destruct ((5 * h <? r) || ((r =? 5 * h) && Z.odd q)) eqn:Up.
      * assert (5 * h <= r).
        { apply orb_true_iff in Up. destruct Up as [U|U];
            [apply Z.ltb_lt in U; lia|].
          apply andb_true_iff in U. destruct U as [U _].
          apply Z.eqb_eq in U. lia. }
        nia.
      * apply orb_false_iff in Up. destruct Up as [U _].
        apply Z.ltb_ge in U. nia.
    + assert (Hr5 : r mod 5 <> 0).
      { intros Hz. apply H5. rewrite Hqr.
        replace (q * (10 * h) + r) with (r + q * 2 * h * 5) by ring.
        rewrite Z_mod_plus_full. exact Hz. }
      assert (Hne : r <> 5 * h /\ r <> 0).
      { split; intros ->; apply Hr5;
          [rewrite Z.mul_comm; apply Z.mod_mul; lia | reflexivity]. }
      destruct ((5 * h <? r) || ((r =? 5 * h) && Z.odd q)) eqn:Up.
      * assert (5 * h < r).
        { apply orb_true_iff in Up. destruct Up as [U|U];
            [apply Z.ltb_lt in U; lia|].
          apply andb_true_iff in U. destruct U as [U _].
          apply Z.eqb_eq in U. lia. }
        nia.
      * apply orb_false_iff in Up. destruct Up as [U _].
        apply Z.ltb_ge in U. nia.
  - (* ties *)
    destruct Hcase as [-> | [H5 [Hlo Hhi]]].
    + destruct ((5 * h <? r) || ((r =? 5 * h) && Z.odd q)) eqn:Up.
      * intros [E|E]; [|exfalso; nia].
        assert (r = 5 * h) by nia.
        apply orb_true_iff in Up. destruct Up as [U|U];
          [apply Z.ltb_lt in U; lia|].
        apply andb_true_iff in U. destruct U as [_ U].
        rewrite Z.even_add. rewrite <- Z.negb_odd, U. reflexivity.
      * intros [E|E]; [exfalso; nia|].
        assert (r = 5 * h) by nia.
        apply orb_false_iff in Up. destruct Up as [_ U].
        apply andb_false_iff in U. destruct U as [U|U];
          [apply Z.eqb_neq in U; lia|].
        rewrite <- Z.negb_odd, U. reflexivity.
    + assert (Hr5 : r mod 5 <> 0).
      { intros Hz. apply H5. rewrite Hqr.
        replace (q * (10 * h) + r) with (r + q * 2 * h * 5) by ring.
        rewrite Z_mod_plus_full. exact Hz. }
      assert (Hne : r <> 5 * h /\ r <> 0).
      { split; intros ->; apply Hr5;
          [rewrite Z.mul_comm; apply Z.mod_mul; lia | reflexivity]. }
      destruct ((5 * h <? r) || ((r =? 5 * h) && Z.odd q)) eqn:Up.
      * assert (5 * h < r).
        { apply orb_true_iff in Up. destruct Up as [U|U];
            [apply Z.ltb_lt in U; lia|].
          apply andb_true_iff in U. destruct U as [U _].
          apply Z.eqb_eq in U. lia. }
        intros [E|E]; exfalso; nia.
      * apply orb_false_iff in Up. destruct Up as [U _].
        apply Z.ltb_ge in U. intros [E|E]; exfalso; nia.
Qed.

Lemma fix_ctx_fits d : Dec.fits d -> Dec.fix_ctx d = d.
Proof.
  unfold Dec.fits, Dec.fix_ctx. intros H.
  destruct (Dec.ndigits (Dec.coef d) <=? Dec.prec) eqn:E; [reflexivity|].
  apply Z.leb_gt in E. lia.
Qed.

(** A short positive coefficient is its own rounding. *)
Lemma rounds_pos_short c e :
  0 < c -> Dec.ndigits c <= Dec.prec ->
  rounds_pos (Dec.val (Dec.mk c e)) (Dec.val (Dec.mk c e)).
Proof.
  intros Hc Hs. set (j := Dec.prec - Dec.ndigits c).
  assert (Hj : 0 <= j) by (unfold j; lia).
  assert (Hv : (Dec.val (Dec.mk c e)
                == inject_Z (c * 10 ^ j) * Dec.pow10 (e - j + 0))%Q).
  { rewrite val_mk. rewrite <- scale_shift by exact Hj.
    replace (e - j + 0 + j) with e by lia. reflexivity. }
  eapply rounds_pos_proper; [reflexivity | symmetry; exact Hv |].
  destruct (ndigits_spec c Hc) as [Hlo Hhi]. pose proof (ndigits_pos c).
  assert (Hpj : 0 < 10 ^ j) by (apply Z.pow_pos_nonneg; lia).
  assert (H1 : 10 ^ (Dec.prec - 1) = 10 ^ (Dec.ndigits c - 1) * 10 ^ j).
  { rewrite <- Z.pow_add_r by lia. f_equal. unfold j. lia. }
  assert (H2 : 10 ^ Dec.prec = 10 ^ Dec.ndigits c * 10 ^ j).
  { rewrite <- Z.pow_add_r by lia. f_equal. unfold j. lia. }
  apply (rounds_pos_intro _ (c * 10 ^ j) 1 (e - j) 0); try lia.
  - rewrite val_mk. rewrite <- (scale_shift c (e - j) j) by exact Hj.
    replace (e - j + j) with e by lia. change (inject_Z 1) with 1%Q. ring.
  - rewrite H1, H2. change (10 ^ 0) with 1. nia.
Qed.

Lemma copy_negate_val d : (Dec.val (Dec.copy_negate d) == - Dec.val d)%Q.
Proof.
  unfold Dec.val, Dec.copy_negate. simpl. rewrite inject_Z_opp. ring.
Qed.

Lemma fix_ctx_copy_negate d :
  Dec.fix_ctx (Dec.copy_negate d) = Dec.copy_negate (Dec.fix_ctx d).
Proof.
  unfold Dec.fix_ctx, Dec.copy_negate. simpl.
  rewrite ndigits_opp, Z.abs_opp, Z.sgn_opp.
  destruct (Dec.ndigits (Dec.coef d) <=? Dec.prec); [reflexivity|].
  match goal with |- context [if ?b then _ else _] =>
    destruct b; simpl; f_equal; lia end.
Qed.

(** [_fix] rounds to [prec] digits, to the nearest, ties to even. *)
Lemma fix_ctx_rounds d : rounds (Dec.val d) (Dec.val (Dec.fix_ctx d)).
Proof.
  assert (Pos : forall c e, 0 < c ->
            rounds_pos (Dec.val (Dec.mk c e)) (Dec.val (Dec.fix_ctx (Dec.mk c e)))).
  { intros c e Hc. destruct (Z_le_gt_dec (Dec.ndigits c) Dec.prec) as [Hs|Hl].
    - rewrite fix_ctx_fits by exact Hs. apply rounds_pos_short; assumption.
    - apply (fix_ctx_rounds_long _ c 1 c e); try lia.
      rewrite val_mk. change (inject_Z 1) with 1%Q. ring. }
  destruct d as [c e]. destruct (Z.lt_trichotomy c 0) as [Hn|[->|Hp]].
  - right; right. split.
    + rewrite val_mk. pose proof (proj2 (scale_lt c 0 e) Hn) as H.
      change (inject_Z 0) with 0%Q in H. lra.
    + apply (rounds_pos_proper
               (Dec.val (Dec.copy_negate (Dec.mk c e))) _
               (Dec.val (Dec.copy_negate (Dec.fix_ctx (Dec.mk c e)))));
        [apply copy_negate_val | apply copy_negate_val |].
      rewrite <- fix_ctx_copy_negate. unfold Dec.copy_negate. simpl.
      apply Pos. lia.
  - left. rewrite fix_ctx_fits by (unfold Dec.fits; cbv; discriminate).
    rewrite val_mk. split; ring.
  - right; left. split; [rewrite val_mk; apply scale_pos; exact Hp | apply Pos; exact Hp].
Qed.

Lemma add_exact_val a b :
  (Dec.val (Dec.add_exact a b) == Dec.val a + Dec.val b)%Q.
Proof.
  unfold Dec.add_exact, Dec.val. simpl.
  set (m := Z.min (Dec.dexp a) (Dec.dexp b)).
  rewrite inject_Z_plus, Qmult_plus_distr_l.
  rewrite <- !scale_shift by lia.
  replace (m + (Dec.dexp a - m)) with (Dec.dexp a) by lia.
  replace (m + (Dec.dexp b - m)) with (Dec.dexp b) by lia.
  reflexivity.
Qed.

Lemma add_rounds a b : rounds (Dec.val a + Dec.val b) (Dec.val (Dec.add a b)).
Proof.
  eapply rounds_proper; [apply add_exact_val | reflexivity | apply fix_ctx_rounds].
Qed.

Lemma sub_rounds a b : rounds (Dec.val a - Dec.val b) (Dec.val (Dec.sub a b)).
Proof.
  eapply rounds_proper; [| reflexivity | apply (add_rounds a (Dec.copy_negate b))].
  rewrite copy_negate_val. ring.
Qed.

Lemma neg_rounds a : rounds (- Dec.val a) (Dec.val (Dec.neg a)).
Proof.
  eapply rounds_proper; [apply copy_negate_val | reflexivity | apply fix_ctx_rounds].
Qed.

Lemma mul_rounds a b : rounds (Dec.val a * Dec.val b) (Dec.val (Dec.mul a b)).
Proof.
  eapply rounds_proper; [| reflexivity | apply fix_ctx_rounds].
  rewrite val_mk. unfold Dec.val. rewrite inject_Z_mult, pow10_add. ring.
Qed.

(** A value that fits the precision is kept by rounding. *)
Lemma rounds_fits d : Dec.fits d -> rounds (Dec.val d) (Dec.val d).
Proof.
  intros H. pose proof (fix_ctx_rounds d) as R. rewrite fix_ctx_fits in R; assumption.
Qed.

Lemma pow10_sub a b : (Dec.pow10 (a - b) == Dec.pow10 a / Dec.pow10 b)%Q.
Proof. apply Qpower_minus. discriminate. Qed.

Lemma pow10_nz e : ~ (Dec.pow10 e == 0)%Q.
Proof. pose proof (pow10_pos e). lra. Qed.

Lemma strip_zeros_spec fuel : forall c e,
  0 < c ->
  let r := Dec.strip_zeros fuel c e in
  0 < r.1 /\ (inject_Z r.1 * Dec.pow10 r.2 == inject_Z c * Dec.pow10 e)%Q.
Proof.
  induction fuel as [|f IH]; intros c e Hc; simpl.
  - split; [exact Hc | reflexivity].
  - destruct (c mod 10 =? 0) eqn:E; [|split; [exact Hc | reflexivity]].
    apply Z.eqb_eq in E.
    pose proof (Z.div_mod c 10 ltac:(lia)) as Hdm. rewrite E in Hdm.
    assert (H0 : 0 < c / 10) by lia.
    destruct (IH (c / 10) (e + 1) H0) as [H1 H2]. split; [exact H1|].
    rewrite H2. rewrite (scale_shift _ e 1) by lia. apply scale_eq.
    change (10 ^ 1) with 10. lia.
Qed.

Lemma div_unfold a b :
  Dec.coef b <> 0 -> Dec.coef a <> 0 ->
  Dec.div a b =
  Some (Dec.fix_ctx
          (Dec.mk (Z.sgn (Dec.coef a) * Z.sgn (Dec.coef b)
                   * (div_mag (Z.abs (Dec.coef a)) (Z.abs (Dec.coef b))
                              (Dec.dexp a) (Dec.dexp b)).1)
                  (div_mag (Z.abs (Dec.coef a)) (Z.abs (Dec.coef b))
                           (Dec.dexp a) (Dec.dexp b)).2)).
Proof.
  intros Hb Ha. unfold Dec.div, div_mag.
  destruct (Dec.coef b =? 0) eqn:Eb; [apply Z.eqb_eq in Eb; contradiction|].
  destruct (Dec.coef a =? 0) eqn:Ea; [apply Z.eqb_eq in Ea; contradiction|].
  rewrite !ndigits_abs.
  destruct (if 0 <=? _ then _ else _) as [q r].
  destruct (r =? 0); [|reflexivity].
  destruct (Dec.strip_zeros _ _ _); reflexivity.
Qed.

Lemma ndigits_gt c : 10 ^ Dec.prec <= c -> Dec.prec < Dec.ndigits c.
Proof.
  intros H. assert (Hc : 0 < c) by (pose proof pow_prec1_pos; pose proof pow_prec; lia).
  destruct (ndigits_spec c Hc) as [_ Hhi].
  destruct (Z_lt_le_dec Dec.prec (Dec.ndigits c)) as [L|L]; [exact L|].
  pose proof (ndigits_pos c).
  assert (10 ^ Dec.ndigits c <= 10 ^ Dec.prec) by (apply Z.pow_le_mono_r; lia).
  lia.
Qed.

Lemma rounds_pos_of_rounds x v : rounds x v -> (0 < x)%Q -> rounds_pos x v.
Proof.
  intros [[X0 V0] | [[X1 Xr] | [X1 Xr]]] H; [lra | exact Xr | lra].
Qed.

Lemma div_mag_rounds n m ea eb :
  0 < n -> 0 < m ->
  0 < (div_mag n m ea eb).1
  /\ rounds_pos (inject_Z n * Dec.pow10 ea / (inject_Z m * Dec.pow10 eb))
       (Dec.val (Dec.fix_ctx (Dec.mk (div_mag n m ea eb).1 (div_mag n m ea eb).2))).
Proof.
  intros Hn Hm. unfold div_mag.
  set (s := Dec.ndigits m - Dec.ndigits n + Dec.prec + 1).
  set (e := ea - eb - s).
  set (X := (inject_Z n * Dec.pow10 ea / (inject_Z m * Dec.pow10 eb))%Q).
  set (Num := if 0 <=? s then n * 10 ^ s else n).
  set (Den := if 0 <=? s then m else m * 10 ^ (- s)).
  assert (Hde : (if 0 <=? s then Z.div_eucl (n * 10 ^ s) m
                 else Z.div_eucl n (m * 10 ^ (- s))) = Z.div_eucl Num Den).
  { unfold Num, Den. destruct (0 <=? s); reflexivity. }
  rewrite Hde. clear Hde.
  assert (Hmq : (0 < inject_Z m)%Q) by (rewrite Zlt_Qlt in Hm; exact Hm).
  assert (HX0 : (X * inject_Z m == inject_Z n * Dec.pow10 (ea - eb))%Q).
  { unfold X. rewrite pow10_sub. field. split; [apply pow10_nz | lra]. }
  destruct (ndigits_spec n Hn) as [Hnlo Hnhi].
  destruct (ndigits_spec m Hm) as [Hmlo Hmhi].
  pose proof (ndigits_pos n) as Hna. pose proof (ndigits_pos m) as Hnb.
  assert (Hall : 0 < Den
                 /\ (X * inject_Z Den == inject_Z Num * Dec.pow10 e)%Q
                 /\ 10 ^ Dec.prec * Den <= Num).
  { unfold Num, Den. destruct (0 <=? s) eqn:Es.
    - apply Z.leb_le in Es. split; [exact Hm|]. split.
      + rewrite HX0. rewrite <- scale_shift by exact Es.
        replace (e + s) with (ea - eb) by (unfold e; lia). reflexivity.
      + assert (E : 10 ^ (Dec.ndigits n - 1) * 10 ^ s
                    = 10 ^ Dec.prec * 10 ^ Dec.ndigits m).
        { rewrite <- !Z.pow_add_r by (unfold Dec.prec; lia).
          f_equal. unfold s. lia. }
        assert (0 < 10 ^ s) by (apply Z.pow_pos_nonneg; lia).
        pose proof pow_prec1_pos. pose proof pow_prec. nia.
    - apply Z.leb_gt in Es.
      assert (Hp : 0 < 10 ^ (- s)) by (apply Z.pow_pos_nonneg; lia).
      split; [nia|]. split.
      + rewrite inject_Z_mult, Qmult_assoc, HX0.
        rewrite <- (pow10_Z (- s)) by lia.
        rewrite <- Qmult_assoc, <- pow10_add.
        replace (ea - eb + - s) with e by (unfold e; lia). reflexivity.
      + assert (E : 10 ^ Dec.prec * (10 ^ Dec.ndigits m * 10 ^ (- s))
                    = 10 ^ (Dec.ndigits n - 1)).
        { rewrite <- !Z.pow_add_r by (unfold Dec.prec; lia).
          f_equal. unfold s. unfold Dec.prec. lia. }
        pose proof pow_prec1_pos. pose proof pow_prec. nia. }
  destruct Hall as (HD & HX & HQ).
  pose proof (Z_div_mod Num Den ltac:(lia)) as Hdm.
  destruct (Z.div_eucl Num Den) as [q r]. destruct Hdm as [Hdm Hr].
  assert (Hq : 10 ^ Dec.prec <= q) by nia.
  assert (Hq0 : 0 < q) by (pose proof pow_prec1_pos; pose proof pow_prec; lia).
  destruct (r =? 0) eqn:Er.
  - apply Z.eqb_eq in Er.
    destruct (strip_zeros_spec (Z.to_nat (ea - eb - e)) q e Hq0) as [H1 H2].
    split; [exact H1|].
    apply rounds_pos_of_rounds.
    + eapply rounds_proper; [| reflexivity | apply fix_ctx_rounds].
      rewrite val_mk, H2.
      assert (HDq : (0 < inject_Z Den)%Q) by (rewrite Zlt_Qlt in HD; exact HD).
      apply (Qmult_inj_r _ _ (inject_Z Den)); [lra|].
      rewrite HX. rewrite Hdm, Er. rewrite Z.add_0_r, inject_Z_mult. ring.
    + unfold X. apply Qlt_shift_div_l.
      * apply Qmult_lt_0_compat; [exact Hmq | apply pow10_pos].
      * rewrite Qmult_0_l. apply scale_pos. exact Hn.
  - apply Z.eqb_neq in Er. simpl.
    set (C := if q mod 5 =? 0 then q + 1 else q).
    assert (HC : q <= C <= q + 1) by (unfold C; destruct (q mod 5 =? 0); lia).
    assert (HC5 : C mod 5 <> 0).
    { unfold C. destruct (q mod 5 =? 0) eqn:E5.
      - apply Z.eqb_eq in E5. rewrite Z.add_mod, E5 by lia. discriminate.
      - apply Z.eqb_neq in E5. exact E5. }
    assert (HCq : (C - 1) * Den < Num < (C + 1) * Den).
    { unfold C. destruct (q mod 5 =? 0); nia. }
    split; [lia|].
    apply (fix_ctx_rounds_long X Num Den C e);
      [exact HD | lia | apply ndigits_gt; lia | exact HX
      | right; split; assumption].
Qed.

Lemma val_zero_coef d : Dec.coef d = 0 <-> (Dec.val d == 0)%Q.
Proof.
  unfold Dec.val. split.
  - intros ->. ring.
  - intros H. apply (scale_eq _ 0 (Dec.dexp d)). rewrite H. ring.
Qed.

Lemma val_abs_sgn d :
  (Dec.val d == inject_Z (Z.sgn (Dec.coef d))
                * (inject_Z (Z.abs (Dec.coef d)) * Dec.pow10 (Dec.dexp d)))%Q.
Proof.
  unfold Dec.val. rewrite Qmult_assoc, <- inject_Z_mult.
  rewrite Z.mul_comm, Z.abs_sgn. reflexivity.
Qed.

Lemma div_none a b : Dec.div a b = None <-> Dec.coef b = 0.
Proof.
  split.
  - intros H. destruct (Z.eq_dec (Dec.coef b) 0) as [E|E]; [exact E|].
    exfalso. unfold Dec.div in H.
    destruct (Dec.coef b =? 0) eqn:Eb; [apply Z.eqb_eq in Eb; contradiction|].
    destruct (Dec.coef a =? 0); [discriminate|].
    destruct (if 0 <=? _ then _ else _) as [q r].
    destruct (r =? 0); [|discriminate].
    destruct (Dec.strip_zeros _ _ _); discriminate.
  - intros E. unfold Dec.div. rewrite E. reflexivity.
Qed.

(** [a / b] is the quotient rounded to the context. *)
Lemma div_rounds a b q :
  Dec.div a b = Some q ->
  ~ (Dec.val b == 0)%Q /\ rounds (Dec.val a / Dec.val b) (Dec.val q).
Proof.
  intros H.
  assert (Hb : Dec.coef b <> 0).
  { intros E. pose proof (proj2 (div_none a b) E). congruence. }
  assert (Hbv : ~ (Dec.val b == 0)%Q) by (rewrite <- val_zero_coef; exact Hb).
  split; [exact Hbv|].
  destruct (Z.eq_dec (Dec.coef a) 0) as [Ha|Ha].
  - unfold Dec.div in H. rewrite Ha in H.
    destruct (Dec.coef b =? 0) eqn:Eb; [discriminate|]. simpl in H.
    injection H as <-. left. split.
    + apply val_zero_coef in Ha. rewrite Ha. field. exact Hbv.
    + rewrite fix_ctx_fits by (unfold Dec.fits; cbv; discriminate).
      rewrite val_mk. ring.
  - rewrite (div_unfold a b Hb Ha) in H. injection H as <-.
    set (n := Z.abs (Dec.coef a)) in *. set (m := Z.abs (Dec.coef b)) in *.
    assert (Hn : 0 < n) by (unfold n; lia).
    assert (Hm : 0 < m) by (unfold m; lia).
    destruct (div_mag_rounds n m (Dec.dexp a) (Dec.dexp b) Hn Hm) as [HC HR].
    set (C := (div_mag n m (Dec.dexp a) (Dec.dexp b)).1) in *.
    set (e := (div_mag n m (Dec.dexp a) (Dec.dexp b)).2) in *.
    set (X := (inject_Z n * Dec.pow10 (Dec.dexp a)
               / (inject_Z m * Dec.pow10 (Dec.dexp b)))%Q) in *.
    assert (Hmq : ~ (inject_Z m * Dec.pow10 (Dec.dexp b) == 0)%Q).
    { pose proof (scale_pos m (Dec.dexp b) Hm). lra. }
    assert (HXp : (0 < X)%Q) by (apply rounds_pos_sign in HR; tauto).
    assert (Hmz : ~ (inject_Z m == 0)%Q).
    { pose proof Hm as Hm'. rewrite Zlt_Qlt in Hm'.
      change (inject_Z 0) with 0%Q in Hm'. lra. }
    assert (HQ : (Dec.val a / Dec.val b
                  == inject_Z (Z.sgn (Dec.coef a) * Z.sgn (Dec.coef b)) * X)%Q).
    { rewrite (val_abs_sgn a), (val_abs_sgn b). fold n m. unfold X.
      assert (Hsa : Z.sgn (Dec.coef a) = 1 \/ Z.sgn (Dec.coef a) = -1) by lia.
      assert (Hsb : Z.sgn (Dec.coef b) = 1 \/ Z.sgn (Dec.coef b) = -1) by lia.
      rewrite inject_Z_mult.
      destruct Hsa as [-> | ->], Hsb as [-> | ->];
        change (inject_Z 1) with 1%Q; change (inject_Z (-1)) with (-1)%Q;
        field; (split; [apply pow10_nz | exact Hmz]). }
    assert (Hsg : Z.sgn (Dec.coef a) * Z.sgn (Dec.coef b) = 1
                  \/ Z.sgn (Dec.coef a) * Z.sgn (Dec.coef b) = -1) by lia.
    eapply rounds_proper; [symmetry; exact HQ | reflexivity |].
    destruct Hsg as [-> | ->].
    + replace (1 * C) with C by lia. right; left. split.
      * change (inject_Z 1) with 1%Q. lra.
      * eapply rounds_pos_proper; [| reflexivity | exact HR].
        change (inject_Z 1) with 1%Q. ring.
    + replace (-1 * C) with (- C) by lia. right; right. split.
      * change (inject_Z (-1)) with (-1)%Q. lra.
      * change (Dec.mk (- C) e) with (Dec.copy_negate (Dec.mk C e)).
        rewrite fix_ctx_copy_negate.
        eapply rounds_pos_proper; [| | exact HR].
        -- change (inject_Z (-1)) with (-1)%Q. ring.
        -- rewrite copy_negate_val. ring.
Qed.

(** ** Comparisons of decimals *)

Lemma gtb_true (a b : Decimal) :
  Dec.gtb a b = true <-> (Dec.val b < Dec.val a)%Q.
Proof.
  unfold Dec.gtb, Dec.compare. rewrite (Qgt_alt (Dec.val a) (Dec.val b)).
  destruct (Dec.val a ?= Dec.val b)%Q; split; congruence.
Qed.

Lemma gtb_false (a b : Decimal) :
  Dec.gtb a b = false <-> (Dec.val a <= Dec.val b)%Q.
Proof.
  unfold Dec.gtb, Dec.compare. rewrite (Qle_alt (Dec.val a) (Dec.val b)).
  destruct (Dec.val a ?= Dec.val b)%Q; split; congruence.
Qed.

Lemma geb_true (a b : Decimal) :
  Dec.geb a b = true <-> (Dec.val b <= Dec.val a)%Q.
Proof.
  unfold Dec.geb, Dec.compare.
  change (Dec.val b <= Dec.val a)%Q with (Dec.val a >= Dec.val b)%Q.
  rewrite (Qge_alt (Dec.val a) (Dec.val b)).
  destruct (Dec.val a ?= Dec.val b)%Q; split; congruence.
Qed.

Lemma geb_false (a b : Decimal) :
  Dec.geb a b = false <-> (Dec.val a < Dec.val b)%Q.
Proof.
  unfold Dec.geb, Dec.compare. rewrite (Qlt_alt (Dec.val a) (Dec.val b)).
  destruct (Dec.val a ?= Dec.val b)%Q; split; congruence.
Qed.

(** ** The sizes of a sweep grow with the index *)

Lemma val_of_int (n : Z) : (Dec.val (Dec.of_int n) == inject_Z n)%Q.
Proof. unfold Dec.val, Dec.of_int. simpl. apply Qmult_1_r. Qed.

(** With [min_order_amount <= max_order_amount] the step is not negative,
    and a later sample is not smaller than an earlier one. *)
Lemma sample_size_nondecreasing (cfg : AmmArbV2Config.t) step_size (i j : nat) :
  step_size_of cfg = Ok step_size ->
  (Dec.val (AmmArbV2Config.min_order_amount cfg)
   <= Dec.val (AmmArbV2Config.max_order_amount cfg))%Q ->
  (i <= j)%nat ->
  (Dec.val (sample_size cfg step_size (Z.of_nat i))
   <= Dec.val (sample_size cfg step_size (Z.of_nat j)))%Q.
Proof.
  intros Hs Hle Hij. unfold step_size_of, truediv in Hs.
  destruct (Dec.div _ _) as [q|] eqn:Hdiv; [|discriminate].
  injection Hs as ->.
  destruct (div_rounds _ _ _ Hdiv) as [_ Hq].
  assert (H19 : (Dec.val (Dec.of_int (Z.of_nat num_steps - 1)) == 19)%Q)
    by reflexivity.
  assert (Hd : (0 <= Dec.val (AmmArbV2Config.max_order_amount cfg
                              - AmmArbV2Config.min_order_amount cfg)%dec)%Q).
  { apply (rounds_sign _ _ (sub_rounds _ _)). lra. }
  assert (Hstep : (0 <= Dec.val step_size)%Q).
  { apply (rounds_sign _ _ Hq). rewrite H19.
    apply Qle_shift_div_l; [reflexivity | lra]. }
  unfold sample_size.
  apply (rounds_mono _ _ _ _) with (2 := add_rounds _ _) (3 := add_rounds _ _).
  apply Qplus_le_r.
  apply (rounds_mono _ _ _ _) with (2 := mul_rounds _ _) (3 := mul_rounds _ _).
  rewrite !val_of_int.
  assert (Hz : (inject_Z (Z.of_nat i) <= inject_Z (Z.of_nat j))%Q).
  { rewrite <- Zle_Qle. lia. }
  nra.
Qed.

(** ** Running the controller's methods *)

Ltac run_m :=
  unfold mbind, M_bind, bind, mret, M_ret, ret, gets, lift, modify, raise; simpl.

Section ControllerFacts.
Import AmmArbV2Controller.
Context {W : Type}.
Variable create_arb_proposals :
  MarketTradingPairTuple.t -> MarketTradingPairTuple.t -> Decimal ->
  W -> Result (list ArbProposal.t) * W.
Variable profit_pct : ArbProposal.t -> bool -> Result Decimal.

Local Abbreviation self_t := (AmmArbV2Controller.t W).
Local Abbreviation eval_sample := (eval_sample create_arb_proposals profit_pct).
Local Abbreviation eval_samples := (eval_samples create_arb_proposals profit_pct).
Local Abbreviation sweep_step := (sweep_step create_arb_proposals profit_pct).
Local Abbreviation find_best_size_for_direction := (find_best_size_for_direction create_arb_proposals profit_pct).
Local Abbreviation find_optimal_arb_opportunity := (find_optimal_arb_opportunity create_arb_proposals profit_pct).
Local Abbreviation determine_actions := (determine_actions create_arb_proposals profit_pct).

(** One sample, case by case. *)
Lemma eval_sample_run buy sell step i (self : self_t) :
  eval_sample buy sell step i self =
  match create_arb_proposals buy sell (sample_size (config self) step i)
          (venues self) with
  | (Ok proposals, w) =>
      match index0 proposals with
      | Ok proposal =>
          match profit_pct proposal true with
          | Ok pct => (Ok (proposal, pct), set_venues w self)
          | Raise e => (Raise e, set_venues w self)
          end
      | Raise e => (Raise e, set_venues w self)
      end
  | (Raise e, w) => (Raise e, set_venues w self)
  end.
Proof.
  unfold eval_sample, await_create_arb_proposals. run_m.
  destruct (create_arb_proposals _ _ _ _) as [[ps|e] w]; simpl; [|reflexivity].
  destruct (index0 ps) as [p|e]; simpl; [|reflexivity].
  destruct (profit_pct p true); reflexivity.
Qed.

(** A sample touches nothing of the controller but the venues. *)
Lemma eval_sample_frame buy sell step i (self self' : self_t) r :
  eval_sample buy sell step i self = (r, self') ->
  self' = set_venues (venues self') self.
Proof.
  rewrite eval_sample_run.
  destruct (create_arb_proposals _ _ _ _) as [[ps|e] w];
    [destruct (index0 ps) as [p|e];
      [destruct (profit_pct p true)|]|];
    intros [= _ <-]; reflexivity.
Qed.

Lemma eval_samples_frame buy sell step l : forall (self self' : self_t) r,
  eval_samples buy sell step l self = (r, self') ->
  self' = set_venues (venues self') self.
Proof.
  induction l as [|i l IH]; intros self self' r; simpl.
  - run_m. intros [= _ <-]. destruct self; reflexivity.
  - run_m. destruct (eval_sample buy sell step i self) as [[x|e] s1] eqn:E1.
    + apply eval_sample_frame in E1.
      destruct (eval_samples buy sell step l s1) as [[xs|e] s2] eqn:E2;
        apply IH in E2; intros [= _ <-]; rewrite E2, E1; reflexivity.
    + apply eval_sample_frame in E1. intros [= _ <-]. exact E1.
Qed.

(** The loop body is a sample followed by the comparison. *)
Lemma sweep_step_run buy sell step i best (self : self_t) :
  sweep_step buy sell step i best self =
  match eval_sample buy sell step i self with
  | (Ok x, self') => (Ok (keep_best best x), self')
  | (Raise e, self') => (Raise e, self')
  end.
Proof.
  rewrite eval_sample_run.
  unfold sweep_step, await_create_arb_proposals, keep_best,
    sample_size. run_m.
  destruct (create_arb_proposals _ _ _ _) as [[ps|e] w]; simpl; [|reflexivity].
  destruct (index0 ps) as [p|e]; simpl; [|reflexivity].
  destruct (profit_pct p true) as [q|e]; simpl; [|reflexivity].
  destruct (Dec.gtb q best.1); reflexivity.
Qed.

(** The loop is the samples in order, then the fold of the comparison. *)
Lemma for_each_sweep buy sell step l : forall best (self : self_t),
  for_each l (sweep_step buy sell step) best self =
  match eval_samples buy sell step l self with
  | (Ok xs, self') => (Ok (fold_left keep_best xs best), self')
  | (Raise e, self') => (Raise e, self')
  end.
Proof.
  induction l as [|i l IH]; intros best self; simpl.
  - reflexivity.
  - run_m. rewrite sweep_step_run.
    destruct (eval_sample buy sell step i self) as [[x|e] s1]; [|reflexivity].
    rewrite IH.
    destruct (eval_samples buy sell step l s1) as [[xs|e] s2]; reflexivity.
Qed.

(** Division by [num_steps - 1 = 19] never raises. *)
Lemma step_size_ok (cfg : AmmArbV2Config.t) :
  exists step_size, step_size_of cfg = Ok step_size.
Proof.
  unfold step_size_of, truediv, Dec.div. simpl.
  destruct (Dec.coef _ =? 0); [eauto|].
  destruct (if 0 <=? _ then _ else _) as [q r].
  destruct (r =? 0); [|eauto].
  destruct (Dec.strip_zeros _ _ _); eauto.
Qed.

(** The whole sweep in terms of its samples. *)
Lemma find_best_run buy sell (self : self_t) step_size :
  step_size_of (config self) = Ok step_size ->
  find_best_size_for_direction buy sell self =
  match eval_samples buy sell step_size (range num_steps) self with
  | (Ok xs, self') => (Ok (sweep_result (running_best xs)), self')
  | (Raise e, self') => (Raise e, self')
  end.
Proof.
  intros Hs. unfold find_best_size_for_direction.
  unfold step_size_of in Hs. remember (range num_steps) as l eqn:El.
  remember (Z.of_nat num_steps - 1) as d eqn:Ed.
  run_m. rewrite Hs. simpl. rewrite for_each_sweep.
  destruct (eval_samples _ _ _ _ _) as [[xs|e] s1]; [|reflexivity].
  unfold sweep_result, running_best.
  destruct (fold_left keep_best xs _) as [b [p|]]; simpl; [|reflexivity].
  destruct (Dec.gtb b (Dec.of_int 0)); reflexivity.
Qed.

Lemma find_best_frame buy sell (self self' : self_t) r :
  find_best_size_for_direction buy sell self = (r, self') ->
  self' = set_venues (venues self') self.
Proof.
  destruct (step_size_ok (config self)) as [step Hs].
  rewrite (find_best_run _ _ _ _ Hs).
  destruct (eval_samples _ _ _ _ _) as [[xs|e] s1] eqn:E;
    apply eval_samples_frame in E; intros [= _ <-]; exact E.
Qed.

Lemma find_optimal_run (self : self_t) market_1 market_2 :
  connectors self !! "market_1"%string = Some market_1 ->
  connectors self !! "market_2"%string = Some market_2 ->
  find_optimal_arb_opportunity self =
  match find_best_size_for_direction market_1 market_2 self with
  | (Ok opp1, s1) =>
      match find_best_size_for_direction market_2 market_1 s1 with
      | (Ok opp2, s2) => (Ok (choose opp1 opp2), s2)
      | (Raise e, s2) => (Raise e, s2)
      end
  | (Raise e, s1) => (Raise e, s1)
  end.
Proof.
  intros H1 H2. unfold find_optimal_arb_opportunity, getitem.
  run_m. rewrite H1, H2. simpl.
  destruct (find_best_size_for_direction market_1 market_2 self)
    as [[opp1|e] s1]; [|reflexivity].
  destruct (find_best_size_for_direction market_2 market_1 s1)
    as [[opp2|e] s2]; reflexivity.
Qed.

Lemma find_optimal_frame (self self' : self_t) r :
  find_optimal_arb_opportunity self = (r, self') ->
  self' = set_venues (venues self') self.
Proof.
  unfold find_optimal_arb_opportunity, getitem. run_m.
  destruct (connectors self !! "market_1"%string) as [m1|]; simpl;
    [|intros [= _ <-]; destruct self; reflexivity].
  destruct (connectors self !! "market_2"%string) as [m2|]; simpl;
    [|intros [= _ <-]; destruct self; reflexivity].
  destruct (find_best_size_for_direction m1 m2 self) as [[opp1|e] s1] eqn:E1;
    apply find_best_frame in E1; [|intros [= _ <-]; exact E1].
  destruct (find_best_size_for_direction m2 m1 s1) as [[opp2|e] s2] eqn:E2;
    apply find_best_frame in E2; intros [= _ <-]; rewrite E2, E1;
    reflexivity.
Qed.

(** C1. With [opp1] the result of the sweep buying on market 1 and [opp2]
    the result of the reverse sweep, [find_optimal_arb_opportunity]
    returns [opp1] when both are present and [opp1]'s profitability is
    strictly greater; when both are present and it is not (a tie
    included) it returns [opp2]; when one is absent it returns the other,
    which is none when both are. *)
Theorem find_optimal_selection_rule
    (self s1 s2 : self_t) market_1 market_2 opp1 opp2 :
  connectors self !! "market_1"%string = Some market_1 ->
  connectors self !! "market_2"%string = Some market_2 ->
  find_best_size_for_direction market_1 market_2 self = (Ok opp1, s1) ->
  find_best_size_for_direction market_2 market_1 s1 = (Ok opp2, s2) ->
  exists r,
    find_optimal_arb_opportunity self = (Ok r, s2)
    /\ (forall p1 q1 p2 q2,
          opp1 = Some (p1, q1) -> opp2 = Some (p2, q2) ->
          ((Dec.val q2 < Dec.val q1)%Q -> r = opp1)
          /\ ((Dec.val q1 <= Dec.val q2)%Q -> r = opp2)
          /\ ((Dec.val q1 == Dec.val q2)%Q -> r = opp2))
    /\ (opp2 = None -> r = opp1)
    /\ (opp1 = None -> r = opp2).
Proof.
  intros H1 H2 E1 E2. exists (choose opp1 opp2).
  rewrite (find_optimal_run _ _ _ H1 H2), E1, E2.
  split; [reflexivity|]. split; [|split].
  - intros p1 q1 p2 q2 -> ->. simpl.
    destruct (Dec.gtb q1 q2) eqn:G.
    + apply gtb_true in G. repeat split; try reflexivity.
      * intros Hle. exfalso. apply (Qlt_not_le _ _ G Hle).
      * intros Heq. exfalso. rewrite Heq in G. apply (Qlt_irrefl _ G).
    + apply gtb_false in G. repeat split; try reflexivity.
      intros Hlt. exfalso. apply (Qlt_not_le _ _ Hlt G).
  - intros ->. destruct opp1; reflexivity.
  - intros ->. reflexivity.
Qed.

(** C8. When [find_optimal_arb_opportunity] returns none,
    [determine_actions] returns the empty list without raising, and the
    last-proposal slot is what it was. *)
Theorem determine_actions_no_opportunity (self self' : self_t) :
  find_optimal_arb_opportunity self = (Ok None, self') ->
  determine_actions self = (Ok [], self')
  /\ last_proposal self' = last_proposal self.
Proof.
  intros E. split.
  - unfold determine_actions. run_m. rewrite E. reflexivity.
  - apply find_optimal_frame in E. rewrite E. reflexivity.
Qed.

(** C10. When [find_optimal_arb_opportunity] returns a proposal with its
    profitability, [determine_actions] stores the proposal in the
    last-proposal slot whatever the profitability; it returns the two
    executors of the proposal when the profitability is at least
    [min_profitability], and the empty list, with the slot already
    updated, when it is below. *)
Theorem determine_actions_gate (self s1 : self_t) proposal pct :
  find_optimal_arb_opportunity self = (Ok (Some (proposal, pct)), s1) ->
  exists acts s2,
    determine_actions self = (Ok acts, s2)
    /\ last_proposal s2 = Some proposal
    /\ ((Dec.val (AmmArbV2Config.min_profitability (config self))
          <= Dec.val pct)%Q ->
        acts = create_executors s2 proposal /\ length acts = 2%nat)
    /\ ((Dec.val pct
          < Dec.val (AmmArbV2Config.min_profitability (config self)))%Q ->
        acts = [] /\ s2 = set_last_proposal (Some proposal) s1)
    /\ (acts <> [] <->
        (Dec.val (AmmArbV2Config.min_profitability (config self))
         <= Dec.val pct)%Q).
Proof.
  intros E. pose proof (find_optimal_frame _ _ _ E) as F.
  assert (Hc : config s1 = config self) by (rewrite F; reflexivity).
  unfold determine_actions. run_m. rewrite E. simpl. rewrite Hc.
  destruct (Dec.geb pct _) eqn:G.
  - apply geb_true in G. eexists _, _. split; [reflexivity|].
    split; [reflexivity|]. split; [|split].
    + intros _. split; reflexivity.
    + intros Hlt. exfalso. apply (Qlt_not_le _ _ Hlt G).
    + split; [intros _; exact G | intros _; discriminate].
  - apply geb_false in G. eexists _, _. split; [reflexivity|].
    split; [reflexivity|]. split; [|split].
    + intros Hle. exfalso. apply (Qlt_not_le _ _ G Hle).
    + intros _. split; reflexivity.
    + split; [intros H; exfalso; apply H; reflexivity
             | intros Hle; exfalso; apply (Qlt_not_le _ _ G Hle)].
Qed.

(** *** The running best of a sweep *)

(** Folding the comparison over the samples either keeps the initial pair,
    no sample being strictly better, or ends on the first sample that
    reaches the greatest profitability. *)
Lemma fold_keep_best (xs : list (ArbProposal.t * Decimal)) : forall b0 o0,
  let best := fold_left keep_best xs (b0, o0) in
  (forall j x, xs !! j = Some x -> (Dec.val x.2 <= Dec.val best.1)%Q)
  /\ ((best = (b0, o0))
      \/ (exists i p,
            xs !! i = Some (p, best.1) /\ best.2 = Some p
            /\ (Dec.val b0 < Dec.val best.1)%Q
            /\ forall j x, (j < i)%nat -> xs !! j = Some x ->
                          (Dec.val x.2 < Dec.val best.1)%Q)).
Proof.
  induction xs as [|[p q] xs IH]; intros b0 o0; simpl.
  - split; [intros j x H; destruct j; discriminate | left; reflexivity].
  - unfold keep_best at 2 4 6 8 10 12. simpl.
    destruct (Dec.gtb q b0) eqn:G.
    + apply gtb_true in G.
      destruct (IH q (Some p)) as [Hmax Hcase]. simpl in Hmax, Hcase.
      assert (Hq : (Dec.val q <= Dec.val (fold_left keep_best xs (q, Some p)).1)%Q).
      { destruct Hcase as [-> | (i & p' & _ & _ & Hlt & _)];
          [apply Qle_refl | apply Qlt_le_weak, Hlt]. }
      split.
      * intros [|j] x H; [injection H as <-; exact Hq | exact (Hmax j x H)].
      * right. destruct Hcase as [Heq | (i & p' & Hi & Ho & Hlt & Hfirst)].
        -- exists 0%nat, p. rewrite Heq. simpl.
           repeat split; [exact G | intros j x Hj; lia].
        -- exists (S i), p'. repeat split; [exact Hi | exact Ho | |].
           ++ eapply Qlt_trans; eassumption.
           ++ intros [|j] x Hj H; [injection H as <-; exact Hlt|].
              apply (Hfirst j x); [lia | exact H].
    + apply gtb_false in G.
      destruct (IH b0 o0) as [Hmax Hcase]. simpl in Hmax, Hcase.
      assert (Hb : (Dec.val b0 <= Dec.val (fold_left keep_best xs (b0, o0)).1)%Q).
      { destruct Hcase as [-> | (i & p' & _ & _ & Hlt & _)];
          [apply Qle_refl | apply Qlt_le_weak, Hlt]. }
      split.
      * intros [|j] x H; [injection H as <-; eapply Qle_trans; eassumption
                         | exact (Hmax j x H)].
      * destruct Hcase as [Heq | (i & p' & Hi & Ho & Hlt & Hfirst)];
          [left; exact Heq | right].
        exists (S i), p'. repeat split; [exact Hi | exact Ho | exact Hlt |].
        intros [|j] x Hj H.
        -- injection H as <-. eapply Qle_lt_trans; eassumption.
        -- apply (Hfirst j x); [lia | exact H].
Qed.

Lemma eval_samples_length buy sell step l : forall (self self' : self_t) xs,
  eval_samples buy sell step l self = (Ok xs, self') ->
  length xs = length l.
Proof.
  induction l as [|i l IH]; intros self self' xs; simpl; run_m.
  - intros [= <- _]. reflexivity.
  - destruct (eval_sample buy sell step i self) as [[x|e] s1]; [|discriminate].
    destruct (eval_samples buy sell step l s1) as [[ys|e] s2] eqn:E;
      [|discriminate].
    intros [= <- _]. simpl. f_equal. exact (IH _ _ _ E).
Qed.

Lemma val_minus_one : (Dec.val (Dec.mk (-1) 0) == -1)%Q.
Proof. reflexivity. Qed.

Lemma val_zero : (Dec.val (Dec.of_int 0) == 0)%Q.
Proof. reflexivity. Qed.


(** *** Exceptions of a sample *)

Lemma eval_samples_app buy sell step l1 l2 (self : self_t) :
  eval_samples buy sell step (l1 ++ l2) self =
  match eval_samples buy sell step l1 self with
  | (Ok xs, s1) =>
      match eval_samples buy sell step l2 s1 with
      | (Ok ys, s2) => (Ok (xs ++ ys), s2)
      | (Raise e, s2) => (Raise e, s2)
      end
  | (Raise e, s1) => (Raise e, s1)
  end.
Proof.
  revert self. induction l1 as [|i l1 IH]; intros self; simpl; run_m.
  - destruct (eval_samples buy sell step l2 self) as [[ys|e] s2]; reflexivity.
  - destruct (eval_sample buy sell step i self) as [[x|e] s0]; [|reflexivity].
    rewrite IH.
    destruct (eval_samples buy sell step l1 s0) as [[xs|e] s1]; [|reflexivity].
    destruct (eval_samples buy sell step l2 s1) as [[ys|e] s2]; reflexivity.
Qed.

(** C2, as the controller has it. When the proposal of sample [i] cannot
    be built for lack of liquidity, the samples before it having been
    evaluated, the sweep raises InsufficientLiquidity itself: it returns
    no result, the samples after [i] are not asked for, and the
    controller is left with the venues as the failed request left them. *)
Theorem sweep_propagates_insufficient_liquidity
    buy sell (self s1 : self_t) step_size before i after xs w :
  step_size_of (config self) = Ok step_size ->
  range num_steps = before ++ i :: after ->
  eval_samples buy sell step_size before self = (Ok xs, s1) ->
  create_arb_proposals buy sell (sample_size (config self) step_size i)
    (venues s1) = (Raise InsufficientLiquidity, w) ->
  find_best_size_for_direction buy sell self
  = (Raise InsufficientLiquidity, set_venues w self).
Proof.
  intros Hs Hr E1 Hc. rewrite (find_best_run _ _ _ _ Hs), Hr.
  rewrite eval_samples_app, E1. simpl. run_m. rewrite eval_sample_run.
  apply eval_samples_frame in E1.
  assert (Hcfg : config s1 = config self) by (rewrite E1; reflexivity).
  rewrite Hcfg, Hc. rewrite E1. reflexivity.
Qed.

(** *** A sweep returns when its samples do *)

Lemma eval_samples_total buy sell step l :
  (forall a w, exists p ps w',
      create_arb_proposals buy sell a w = (Ok (p :: ps), w')) ->
  (forall p, exists q, profit_pct p true = Ok q) ->
  forall self : self_t, exists xs self',
    eval_samples buy sell step l self = (Ok xs, self').
Proof.
  intros Hc Hp. induction l as [|i l IH]; intros self; simpl; run_m.
  - eauto.
  - rewrite eval_sample_run.
    destruct (Hc (sample_size (config self) step i) (venues self))
      as (p & ps & w' & ->). simpl.
    destruct (Hp p) as [q ->].
    destruct (IH (set_venues w' self)) as (xs & s2 & E).
    rewrite E. eauto.
Qed.

Lemma find_best_total buy sell :
  (forall a w, exists p ps w',
      create_arb_proposals buy sell a w = (Ok (p :: ps), w')) ->
  (forall p, exists q, profit_pct p true = Ok q) ->
  forall self : self_t, exists r self',
    find_best_size_for_direction buy sell self = (Ok r, self').
Proof.
  intros Hc Hp self. destruct (step_size_ok (config self)) as [step Hs].
  rewrite (find_best_run _ _ _ _ Hs).
  destruct (eval_samples_total buy sell step (range num_steps) Hc Hp self)
    as (xs & s1 & ->).
  eauto.
Qed.

End ControllerFacts.

(** ** Two sources of quotes that answer alike *)

Section Simulation.
Import AmmArbV2Controller.
Context {W1 W2 : Type}.
Variable quotes1 :
  MarketTradingPairTuple.t -> MarketTradingPairTuple.t -> Decimal ->
  W1 -> Result (list ArbProposal.t) * W1.
Variable quotes2 :
  MarketTradingPairTuple.t -> MarketTradingPairTuple.t -> Decimal ->
  W2 -> Result (list ArbProposal.t) * W2.
Variable profit_pct : ArbProposal.t -> bool -> Result Decimal.
Variable R : W1 -> W2 -> Prop.

(** From related states, the same answer to the same request, and
    related states again. *)
Hypothesis same_answers : forall m1 m2 a w1 w2,
  R w1 w2 ->
  (quotes1 m1 m2 a w1).1 = (quotes2 m1 m2 a w2).1
  /\ R (quotes1 m1 m2 a w1).2 (quotes2 m1 m2 a w2).2.

Lemma eval_sample_alike buy sell step i s1 s2 :
  alike R s1 s2 ->
  (eval_sample quotes1 profit_pct buy sell step i s1).1
  = (eval_sample quotes2 profit_pct buy sell step i s2).1
  /\ alike R (eval_sample quotes1 profit_pct buy sell step i s1).2
             (eval_sample quotes2 profit_pct buy sell step i s2).2.
Proof.
  intros (Hc & Hn & Hr). rewrite !eval_sample_run, Hc.
  destruct (same_answers buy sell (sample_size (config s2) step i)
              (venues s1) (venues s2) Hr) as [H HR].
  destruct (quotes1 _ _ _ _) as [r1 w1], (quotes2 _ _ _ _) as [r2 w2].
  simpl in H, HR. subst r2.
  assert (Ha : alike R (set_venues w1 s1) (set_venues w2 s2))
    by (repeat split; assumption).
  destruct r1 as [ps|e]; [|split; [reflexivity | exact Ha]].
  destruct (index0 ps) as [p|e]; [|split; [reflexivity | exact Ha]].
  destruct (profit_pct p true); (split; [reflexivity | exact Ha]).
Qed.

Lemma eval_samples_alike buy sell step l : forall s1 s2,
  alike R s1 s2 ->
  (eval_samples quotes1 profit_pct buy sell step l s1).1
  = (eval_samples quotes2 profit_pct buy sell step l s2).1
  /\ alike R (eval_samples quotes1 profit_pct buy sell step l s1).2
             (eval_samples quotes2 profit_pct buy sell step l s2).2.
Proof.
  induction l as [|i l IH]; intros s1 s2 Ha; simpl; run_m.
  - split; [reflexivity | exact Ha].
  - destruct (eval_sample_alike buy sell step i s1 s2 Ha) as [Hr Ha'].
    destruct (eval_sample quotes1 _ _ _ _ _ s1) as [r1 t1],
             (eval_sample quotes2 _ _ _ _ _ s2) as [r2 t2].
    simpl in Hr, Ha'. subst r2.
    destruct r1 as [x|e]; [|split; [reflexivity | exact Ha']].
    destruct (IH t1 t2 Ha') as [Hr2 Ha2].
    destruct (eval_samples quotes1 _ _ _ _ _ t1) as [r1 u1],
             (eval_samples quotes2 _ _ _ _ _ t2) as [r2 u2].
    simpl in Hr2, Ha2. subst r2.
    destruct r1; (split; [reflexivity | exact Ha2]).
Qed.

Lemma find_best_alike buy sell s1 s2 :
  alike R s1 s2 ->
  (find_best_size_for_direction quotes1 profit_pct buy sell s1).1
  = (find_best_size_for_direction quotes2 profit_pct buy sell s2).1
  /\ alike R (find_best_size_for_direction quotes1 profit_pct buy sell s1).2
             (find_best_size_for_direction quotes2 profit_pct buy sell s2).2.
Proof.
  intros Ha. destruct (step_size_ok (config s1)) as [step Hs].
  rewrite (find_best_run quotes1 profit_pct _ _ _ _ Hs).
  pose proof Ha as (Hc & _ & _). rewrite Hc in Hs.
  rewrite (find_best_run quotes2 profit_pct _ _ _ _ Hs).
  destruct (eval_samples_alike buy sell step (range num_steps) s1 s2 Ha)
    as [Hr Ha'].
  destruct (eval_samples quotes1 _ _ _ _ _ s1) as [r1 t1],
           (eval_samples quotes2 _ _ _ _ _ s2) as [r2 t2].
  simpl in Hr, Ha'. subst r2.
  destruct r1; (split; [reflexivity | exact Ha']).
Qed.

Lemma find_optimal_alike s1 s2 :
  alike R s1 s2 ->
  (find_optimal_arb_opportunity quotes1 profit_pct s1).1
  = (find_optimal_arb_opportunity quotes2 profit_pct s2).1.
Proof.
  intros Ha. pose proof Ha as (Hc & Hn & _).
  unfold find_optimal_arb_opportunity, getitem. run_m.
  rewrite Hn.
  destruct (connectors s2 !! "market_1"%string) as [m1|]; [|reflexivity].
  destruct (connectors s2 !! "market_2"%string) as [m2|]; [|reflexivity].
  simpl.
  destruct (find_best_alike m1 m2 s1 s2 Ha) as [Hr Ha1].
  destruct (find_best_size_for_direction quotes1 _ m1 m2 s1) as [r1 t1],
           (find_best_size_for_direction quotes2 _ m1 m2 s2) as [r2 t2].
  simpl in Hr, Ha1. subst r2. destruct r1 as [opp1|e]; [|reflexivity].
  destruct (find_best_alike m2 m1 t1 t2 Ha1) as [Hr2 _].
  destruct (find_best_size_for_direction quotes1 _ m2 m1 t1) as [r1 u1],
           (find_best_size_for_direction quotes2 _ m2 m1 t2) as [r2 u2].
  simpl in Hr2. subst r2. destruct r1; reflexivity.
Qed.

End Simulation.


(** Writing the sizes down changes nothing of a sweep. *)
Lemma recording_transparent {W : Type}
    (quotes :
       MarketTradingPairTuple.t -> MarketTradingPairTuple.t -> Decimal ->
       W -> Result (list ArbProposal.t) * W)
    (profit_pct : ArbProposal.t -> bool -> Result Decimal) buy sell
    (s1 : AmmArbV2Controller.t (W * list Decimal))
    (s2 : AmmArbV2Controller.t W) :
  alike (fun w1 w2 => w1.1 = w2) s1 s2 ->
  (find_best_size_for_direction (recording quotes) profit_pct buy sell s1).1
  = (find_best_size_for_direction quotes profit_pct buy sell s2).1.
Proof.
  intros Ha.
  apply (find_best_alike (recording quotes) quotes profit_pct
           (fun w1 w2 => w1.1 = w2)); [|exact Ha].
  intros m1 m2 a [w l] w2 Hw. simpl in Hw. subst w2. unfold recording. simpl.
  destruct (quotes m1 m2 a w); split; reflexivity.
Qed.

(** ** Consequences for the order of values *)

Lemma val_one : (Dec.val (Dec.mk 1 0) == 1)%Q.
Proof. reflexivity. Qed.

Lemma fits_one : Dec.fits (Dec.mk 1 0).
Proof. unfold Dec.fits. cbv. discriminate. Qed.

(** A value of at most [prec] digits below [x] stays below its rounding. *)
Lemma rounds_ge_fits y x v :
  Dec.fits y -> (Dec.val y <= x)%Q -> rounds x v -> (Dec.val y <= v)%Q.
Proof.
  intros Hy Hle Hr. exact (rounds_mono _ _ _ _ Hle (rounds_fits y Hy) Hr).
Qed.

Lemma rounds_le_fits y x v :
  Dec.fits y -> (x <= Dec.val y)%Q -> rounds x v -> (v <= Dec.val y)%Q.
Proof.
  intros Hy Hle Hr. exact (rounds_mono _ _ _ _ Hle Hr (rounds_fits y Hy)).
Qed.

Lemma neg_fits b : Dec.fits b -> Dec.neg b = Dec.copy_negate b.
Proof.
  intros H. unfold Dec.neg. apply fix_ctx_fits.
  unfold Dec.fits, Dec.copy_negate. simpl. rewrite ndigits_opp. exact H.
Qed.

Section OrderCandidates.
Import AmmArbV2Controller.
Context {W : Type}.


End OrderCandidates.

(** ** The evaluator *)

Lemma truediv_rounds a b :
  ~ (Dec.val b == 0)%Q ->
  exists q, truediv a b = Ok q /\ rounds (Dec.val a / Dec.val b) (Dec.val q).
Proof.
  intros Hb. unfold truediv. destruct (Dec.div a b) as [q|] eqn:E.
  - exists q. split; [reflexivity|]. apply (div_rounds a b q E).
  - exfalso. apply Hb. apply val_zero_coef. apply div_none in E. exact E.
Qed.

Lemma Qdiv_le_compat (a b c d : Q) :
  (0 <= a)%Q -> (a <= b)%Q -> (0 < c)%Q -> (c <= d)%Q -> (a / d <= b / c)%Q.
Proof.
  intros Ha Hab Hc Hcd.
  apply Qle_shift_div_r; [lra|].
  assert (Hbc : (0 <= b / c)%Q).
  { apply Qle_shift_div_l; [exact Hc | lra]. }
  assert (E : (b == b / c * c)%Q) by (field; lra).
  assert (b / c * c <= b / c * d)%Q by nra.
  lra.
Qed.

(** C7. For a proposal whose sides satisfy the invariant of the data
    model, the evaluator returns with and without fees, and the fee-aware
    profitability is not above the fee-less one. *)
Theorem profit_pct_fee_never_improves (p : ArbProposal.t) :
  Evaluator.side_ok (ArbProposal.first_side p) ->
  Evaluator.side_ok (ArbProposal.second_side p) ->
  exists with_fee without_fee,
    Evaluator.profit_pct p true = Ok with_fee
    /\ Evaluator.profit_pct p false = Ok without_fee
    /\ (Dec.val with_fee <= Dec.val without_fee)%Q.
Proof.
  intros H1 H2.
  assert (Hb : Evaluator.side_ok (Evaluator.buy_side p))
    by (unfold Evaluator.buy_side; destruct (ArbProposalSide.is_buy _); assumption).
  assert (Hs : Evaluator.side_ok (Evaluator.sell_side p))
    by (unfold Evaluator.sell_side; destruct (ArbProposalSide.is_buy _); assumption).
  clear H1 H2. unfold Evaluator.profit_pct.
  set (buy := Evaluator.buy_side p) in *. set (sell := Evaluator.sell_side p) in *.
  destruct Hb as (Hba & Hbp & Hbf0 & Hbf1). destruct Hs as (Hsa & Hsp & Hsf0 & Hsf1).
  set (one := Dec.mk 1 0).
  pose proof val_one as V1. fold one in V1.
  (* the two products of amount and price *)
  set (X := (ArbProposalSide.amount buy * ArbProposalSide.order_price buy)%dec).
  set (Y := (ArbProposalSide.amount sell * ArbProposalSide.order_price sell)%dec).
  assert (HX : (0 < Dec.val X)%Q).
  { apply (rounds_sign _ _ (mul_rounds _ _)). nra. }
  assert (HY : (0 < Dec.val Y)%Q).
  { apply (rounds_sign _ _ (mul_rounds _ _)). nra. }
  (* the factors of the fees *)
  assert (HA : (1 <= Dec.val (one + ArbProposalSide.fee buy)%dec)%Q).
  { rewrite <- V1 at 1.
    apply (rounds_ge_fits one _ _ fits_one) with (2 := add_rounds _ _). lra. }
  assert (HB : (0 < Dec.val (one - ArbProposalSide.fee sell)%dec
                /\ Dec.val (one - ArbProposalSide.fee sell)%dec <= 1)%Q).
  { split.
    - apply (rounds_sign _ _ (sub_rounds _ _)). lra.
    - rewrite <- V1.
      apply (rounds_le_fits one _ _ fits_one) with (2 := sub_rounds _ _). lra. }
  (* outlay and proceeds, with and without fees *)
  set (Of := (X * (one + ArbProposalSide.fee buy))%dec).
  set (On := (X * one)%dec).
  set (Pf := (Y * (one - ArbProposalSide.fee sell))%dec).
  set (Pn := (Y * one)%dec).
  assert (HOn : (0 < Dec.val On)%Q).
  { apply (rounds_sign _ _ (mul_rounds _ _)). nra. }
  assert (HO : (Dec.val On <= Dec.val Of)%Q).
  { apply (rounds_mono _ _ _ _) with (2 := mul_rounds _ _) (3 := mul_rounds _ _).
    nra. }
  assert (HPf : (0 < Dec.val Pf)%Q).
  { apply (rounds_sign _ _ (mul_rounds _ _)). nra. }
  assert (HP : (Dec.val Pf <= Dec.val Pn)%Q).
  { apply (rounds_mono _ _ _ _) with (2 := mul_rounds _ _) (3 := mul_rounds _ _).
    nra. }
  destruct (truediv_rounds Pf Of) as (qf & -> & Rf); [lra|].
  destruct (truediv_rounds Pn On) as (qn & -> & Rn); [lra|].
  exists (qf - one)%dec, (qn - one)%dec. split; [reflexivity|]. split; [reflexivity|].
  assert (Hq : (Dec.val qf <= Dec.val qn)%Q).
  { apply (rounds_mono _ _ _ _) with (2 := Rf) (3 := Rn).
    apply Qdiv_le_compat; lra. }
  apply (rounds_mono _ _ _ _) with (2 := sub_rounds _ _) (3 := sub_rounds _ _).
  lra.
Qed.

(** ** The sizes of a sweep *)

Lemma lookup_map {A B : Type} (f : A -> B) (l : list A) : forall i,
  map f l !! i = option_map f (l !! i).
Proof.
  induction l as [|x l IH]; intros [|i]; simpl; try reflexivity. apply IH.
Qed.

Lemma lookup_seq_nat (n : nat) : forall s i,
  (i < n)%nat -> seq s n !! i = Some (s + i)%nat.
Proof.
  induction n as [|n IH]; intros s [|i] H; simpl; try lia.
  - f_equal. lia.
  - rewrite IH by lia. f_equal. lia.
Qed.

Lemma lookup_range (n i : nat) :
  (i < n)%nat -> range n !! i = Some (Z.of_nat i).
Proof.
  intros H. unfold range. rewrite lookup_map, lookup_seq_nat by exact H.
  reflexivity.
Qed.

Lemma range_length (n : nat) : length (range n) = n.
Proof. unfold range. rewrite length_map, length_seq. reflexivity. Qed.

Section SweepSizes.
Import AmmArbV2Controller.
Context {W : Type}.
Variable quotes :
  MarketTradingPairTuple.t -> MarketTradingPairTuple.t -> Decimal ->
  W -> Result (list ArbProposal.t) * W.
Variable profit_pct : ArbProposal.t -> bool -> Result Decimal.

(** The sizes written down by a run of the samples are the sizes of the
    samples, in order. *)
Lemma eval_samples_recorded buy sell step l :
  forall (self self' : AmmArbV2Controller.t (W * list Decimal)) xs,
  eval_samples (recording quotes) profit_pct buy sell step l self
  = (Ok xs, self') ->
  (venues self').2
  = (venues self).2 ++ map (sample_size (config self) step) l.
Proof.
  induction l as [|i l IH]; intros self self' xs; simpl; run_m.
  - intros [= _ <-]. rewrite app_nil_r. reflexivity.
  - rewrite eval_sample_run. unfold recording at 1.
    destruct (quotes buy sell _ (venues self).1) as [[ps|e] w];
      [|discriminate].
    destruct (index0 ps) as [p|e]; [|discriminate].
    destruct (profit_pct p true) as [q|e]; [|discriminate].
    match goal with |- context [eval_samples _ _ _ _ _ _ ?s] =>
      set (s1 := s) end.
    destruct (eval_samples _ _ _ _ _ _ s1) as [[ys|e] s2] eqn:E;
      [|discriminate].
    intros [= _ <-]. rewrite (IH _ _ _ E). unfold s1. simpl.
    rewrite <- app_assoc. reflexivity.
Qed.


End SweepSizes.

(** ** Loading a configuration *)


(** ** The controller on the two venues *)

Import Fixture.

(** Direction 1 at 0.008 against direction 2 at 0.005 is direction 1; at
    0.005 against 0.0050, a tie, it is direction 2. *)
Example choose_strictly_greater :
  choose (Some (proposal binance uniswap (Dec.mk 1 0), Dec.mk 8 (-3)))
         (Some (proposal uniswap binance (Dec.mk 1 0), Dec.mk 5 (-3)))
  = Some (proposal binance uniswap (Dec.mk 1 0), Dec.mk 8 (-3)).
Proof. vm_compute. reflexivity. Qed.

Example choose_tie :
  choose (Some (proposal binance uniswap (Dec.mk 1 0), Dec.mk 5 (-3)))
         (Some (proposal uniswap binance (Dec.mk 1 0), Dec.mk 50 (-4)))
  = Some (proposal uniswap binance (Dec.mk 1 0), Dec.mk 50 (-4)).
Proof. vm_compute. reflexivity. Qed.

Lemma find_optimal_selection_rule_witness :
  exists r,
    find_optimal_arb_opportunity quotes Evaluator.profit_pct
      (controller default_config 0)
    = (Ok r, controller default_config 40)
    /\ r <> None.
Proof.
  destruct (find_optimal_selection_rule quotes Evaluator.profit_pct
              (controller default_config 0) (controller default_config 20)
              (controller default_config 40) binance uniswap
              (Some (proposal binance uniswap
                       (Dec.mk 1142105263157894736842105263 (-28)),
                     Dec.mk 7982017982017982017982019 (-27)))
              None)
    as (r & Hrun & _ & Hone & _);
    [vm_compute; reflexivity | vm_compute; reflexivity
    | vm_compute; reflexivity | vm_compute; reflexivity |].
  exists r. split; [exact Hrun|]. rewrite (Hone eq_refl). discriminate.
Defined.

(** With a depth of 0.5 the eleventh size, 0.531..., cannot be quoted:
    the controller's sweep raises, where a sweep that skips the sample
    returns the best of the sizes that were quoted. *)
Lemma shallow_venue_aborts_the_sweep :
  find_best_size_for_direction (shallow_quotes (Dec.mk 5 (-1)))
    Evaluator.profit_pct binance uniswap (controller default_config 0)
  = (Raise InsufficientLiquidity, controller default_config 11)
  /\ exists p q,
       (find_best_size_skipping (shallow_quotes (Dec.mk 5 (-1)))
          Evaluator.profit_pct binance uniswap
          (controller default_config 0)).1
       = Ok (Some (p, q))
       /\ (0 < Dec.val q)%Q.
Proof.
  split; [vm_compute; reflexivity|].
  vm_compute. eexists _, _. split; reflexivity.
Qed.

Lemma sweep_propagates_insufficient_liquidity_witness :
  find_best_size_for_direction (shallow_quotes (Dec.mk 5 (-1)))
    Evaluator.profit_pct binance uniswap (controller default_config 0)
  = (Raise InsufficientLiquidity,
     set_venues 11%nat (controller default_config 0)).
Proof.
  eapply (sweep_propagates_insufficient_liquidity
            (shallow_quotes (Dec.mk 5 (-1))) Evaluator.profit_pct
            binance uniswap (controller default_config 0)
            (controller default_config 10) _
            (range 10) 10 (map Z.of_nat (seq 11 9))).
  - vm_compute. reflexivity.
  - vm_compute. reflexivity.
  - vm_compute. reflexivity.
  - vm_compute. reflexivity.
Defined.







(** One unit bought at 100 and sold at 101: 0.01 without fees, and
    [101 * 0.999 / (100 * 1.001) - 1 = 0.007982017982017982017982018] with
    a fee of 0.1% on both sides. *)
Example profit_pct_without_fee :
  Evaluator.profit_pct (bought_100_sold_101 (Dec.mk 0 0)) false
  = Ok (Dec.mk 1 (-2)).
Proof. vm_compute. reflexivity. Qed.

Example profit_pct_with_fee :
  Evaluator.profit_pct (bought_100_sold_101 (Dec.mk 1 (-3))) true
  = Ok (Dec.mk 7982017982017982017982018 (-27)).
Proof. vm_compute. reflexivity. Qed.

Lemma profit_pct_fee_never_improves_witness :
  exists with_fee without_fee,
    Evaluator.profit_pct (proposal binance uniswap (Dec.mk 1 0)) true
    = Ok with_fee
    /\ Evaluator.profit_pct (proposal binance uniswap (Dec.mk 1 0)) false
       = Ok without_fee
    /\ (Dec.val with_fee <= Dec.val without_fee)%Q.
Proof.
  apply (profit_pct_fee_never_improves (proposal binance uniswap (Dec.mk 1 0)));
    repeat split; vm_compute; (reflexivity || discriminate).
Defined.

Lemma determine_actions_no_opportunity_witness :
  determine_actions dry_quotes Evaluator.profit_pct
    (controller default_config 0)
  = (Ok [], controller default_config 40)
  /\ AmmArbV2Controller.last_proposal (controller default_config 40) = None.
Proof.
  apply (determine_actions_no_opportunity dry_quotes Evaluator.profit_pct
           (controller default_config 0) (controller default_config 40)).
  vm_compute. reflexivity.
Defined.


Lemma determine_actions_gate_witness :
  exists acts s2,
    determine_actions quotes Evaluator.profit_pct (controller default_config 0)
    = (Ok acts, s2)
    /\ length acts = 2%nat
    /\ AmmArbV2Controller.last_proposal s2
       = Some (proposal binance uniswap
                 (Dec.mk 1142105263157894736842105263 (-28))).
Proof.
  destruct (determine_actions_gate quotes Evaluator.profit_pct
              (controller default_config 0) (controller default_config 40)
              (proposal binance uniswap
                 (Dec.mk 1142105263157894736842105263 (-28)))
              (Dec.mk 7982017982017982017982019 (-27)))
    as (acts & s2 & Hrun & Hlast & Hge & _);
    [vm_compute; reflexivity|].
  exists acts, s2. split; [exact Hrun|]. split; [|exact Hlast].
  apply Hge. vm_compute. discriminate.
Defined.
